(** * ADEKF utilities (include/ADEKF/ADEKFUtils.h)

    A shallow embedding of the header's differentiation helpers
    ([getDerivator], [extractJacobi], [transformReferenceJacobian]), of its
    matrix type selection ([dynamicMatrix], [AutoMatrixType]) and of the
    covariance checks ([isPositiveDefinite], [assurePositiveDefinite]),
    followed by the properties the specification states about them.

    [double] is IEEE binary64, modelled by Rocq's primitive floats. *)

From Stdlib Require Import List Bool Arith ZArith Lia.
From Stdlib Require Import Floats.PrimFloat.
From Stdlib Require Import Floats.SpecFloat Floats.FloatOps Floats.FloatAxioms.
Import ListNotations.

Set Implicit Arguments.

(** ** Scalars and dual numbers *)

Abbreviation double := float.

(** Modelled from the spec: the dual number, [ceres::Jet<double, N>] of the
    included ceres/jet.h: a scalar part [a] and the vector [v] of its [N]
    derivative components.  Only the operators the header's expressions need
    are kept: a [double] added to a jet, and a [double] subtracted from a
    jet; both leave the derivative components as they are. *)
Module ceres.

Record Jet : Set := mkJet { a : double; v : list double }.

(** [operator+(T s, const Jet& f)]: [Jet(f.a + s, f.v)]. *)
Definition add_scalar (s : double) (f : Jet) : Jet :=
  mkJet (PrimFloat.add (a f) s) (v f).

(** [operator-(const Jet& f, T s)]: [Jet(f.a - s, f.v)]. *)
Definition sub_scalar (f : Jet) (s : double) : Jet :=
  mkJet (PrimFloat.sub (a f) s) (v f).

(** A default-constructed jet: everything zero. *)
Definition zero (N : nat) : Jet := mkJet 0%float (repeat 0%float N).

(** [operator*(const Jet& f, const Jet& g)]:
    [Jet(f.a * g.a, f.a * g.v + f.v * g.a)]. *)
Definition mul (f g : Jet) : Jet :=
  mkJet (PrimFloat.mul (a f) (a g))
        (map (fun p => PrimFloat.add (PrimFloat.mul (a f) (fst p))
                                     (PrimFloat.mul (snd p) (a g)))
             (combine (v g) (v f))).

(** [operator*(const Jet& f, T s)]: [Jet(f.a * s, f.v * s)]. *)
Definition mul_scalar (f : Jet) (s : double) : Jet :=
  mkJet (PrimFloat.mul (a f) s) (map (fun c => PrimFloat.mul c s) (v f)).

(** [operator/(const Jet& f, T s)]: with [s_inverse = 1.0 / s],
    [Jet(f.a * s_inverse, f.v * s_inverse)]. *)
Definition div_scalar (f : Jet) (s : double) : Jet :=
  let s_inverse := PrimFloat.div 1%float s in
  mkJet (PrimFloat.mul (a f) s_inverse)
        (map (fun c => PrimFloat.mul c s_inverse) (v f)).

End ceres.

Abbreviation Jet := ceres.Jet.

(** ** Dense vectors and matrices

    An Eigen vector is the list of its coefficients; a dense matrix is the
    list of its rows. *)

Definition Vector : Set := list double.
Definition Matrix : Set := list (list double).

Definition rows (m : Matrix) : nat := length m.

(** [m(i, j)]. *)
Definition coeff (m : Matrix) (i j : nat) : double :=
  nth j (nth i m []) 0%float.

(** [n] rows of [m] coefficients each. *)
Definition has_dims (n m : nat) (D : Matrix) : Prop :=
  length D = n /\ Forall (fun row => length row = m) D.

(** [l[i] = f (l[i])]; the header only ever writes inside the vector. *)
Fixpoint update {A : Type} (l : list A) (i : nat) (f : A -> A) : list A :=
  match l, i with
  | [], _ => []
  | x :: l', O => f x :: l'
  | x :: l', S i' => x :: update l' i' f
  end.

(** Rebuilds a list from its elements and their indices, counting from [k]. *)
Fixpoint mapi_from {A B : Type} (k : nat) (f : nat -> A -> B) (l : list A)
  : list B :=
  match l with
  | [] => []
  | x :: l' => f k x :: mapi_from (S k) f l'
  end.

(** [Matrix::Identity(n, m)]. *)
Definition Identity (n m : nat) : Matrix :=
  map (fun i => map (fun j => if i =? j then 1%float else 0%float) (seq 0 m))
      (seq 0 n).

(** [Vector::Zero(n)]. *)
Definition Zero (n : nat) : Vector := repeat 0%float n.

(** [vec.segment<n>(start)]: Eigen asserts that the segment lies inside the
    vector; outside, the call fails its assertion or is undefined, which is
    [None]. *)
Definition segment (vec : Vector) (start n : nat) : option Vector :=
  if start + n <=? length vec
  then Some (firstn n (skipn start vec))
  else None.

Definition in_block (start size i : nat) : bool :=
  (start <=? i) && (i <? start + size).

(** [D.block<blockRows, blockCols>(startRow, startCol) = B]: Eigen asserts
    that the block lies inside [D]; outside, the call fails its assertion or
    is undefined, which is [None].  The other coefficients of [D] are
    kept. *)
Definition setBlock (D : Matrix) (startRow startCol blockRows blockCols : nat)
  (B : Matrix) : option Matrix :=
  if (startRow + blockRows <=? rows D)
     && forallb (fun row => startCol + blockCols <=? length row) D
  then Some (mapi_from 0 (fun i row =>
               mapi_from 0 (fun j x =>
                 if in_block startRow blockRows i && in_block startCol blockCols j
                 then coeff B (i - startRow) (j - startCol)
                 else x) row) D)
  else None.

(** Eigen's coefficient-wise sum of a [double] vector and a jet vector of
    the same static size. *)
Definition vadd (x : Vector) (d : list Jet) : list Jet :=
  map (fun p => ceres.add_scalar (fst p) (snd p)) (combine x d).

(** ** getDerivator *)

(** The function's two statics. *)
Record DerivatorStatics : Set :=
  { result : list Jet; first_call : bool }.

(** [result.setZero()]. *)
Definition setZero (Size : nat) : list Jet := repeat (ceres.zero Size) Size.

(** [result[i].v[i] = 1]. *)
Definition seed_component (res : list Jet) (i : nat) : list Jet :=
  update res i
    (fun jet => ceres.mkJet (ceres.a jet)
                  (update (ceres.v jet) i (fun _ => 1%float))).

(** What the first call stores: [setZero] followed by the loop over
    [i = 0 .. Size - 1]. *)
Definition derivator (Size : nat) : list Jet :=
  fold_left seed_component (seq 0 Size) (setZero Size).

(** The [i]-th standard basis vector of dimension [Size]. *)
Definition unit_vector (Size i : nat) : Vector :=
  map (fun k => if k =? i then 1%float else 0%float) (seq 0 Size).

(** The vector after the first [k] rounds of the loop. *)
Definition seeded (Size k : nat) : list Jet :=
  map (fun i => ceres.mkJet 0%float
                  (if i <? k then unit_vector Size i else repeat 0%float Size))
      (seq 0 Size).

(** One call of [getDerivator<Size>()] on the statics of that instantiation:
    the returned vector and the statics afterwards. *)
Definition getDerivator (Size : nat) (st : DerivatorStatics)
  : list Jet * DerivatorStatics :=
  if first_call st
  then let res := derivator Size in
       (res, {| result := res; first_call := false |})
  else (result st, st).

(** The statics before the first call hold [first_call = true] and some
    default-constructed [result]; every later state comes from a call. *)
Inductive reachable (Size : nat) : DerivatorStatics -> Prop :=
| reachable_init : forall res0,
    reachable Size {| result := res0; first_call := true |}
| reachable_call : forall st,
    reachable Size st -> reachable Size (snd (getDerivator Size st)).

(** The matrix whose column [i] is the derivative vector of component [i]. *)
Definition derivative_columns (Size : nat) (res : list Jet) : Matrix :=
  map (fun k => map (fun jet => nth k (ceres.v jet) 0%float) res) (seq 0 Size).

(** ** Matrix types

    Eigen fixes a matrix type by its scalar and its two compile-time sizes,
    [Dynamic] being [-1]. *)

Inductive ScalarKind : Set := float_t | double_t.

Definition Dynamic : Z := (-1)%Z.

Record EigenMatrix : Set :=
  { Scalar : ScalarKind; RowsAtCompileTime : Z; ColsAtCompileTime : Z }.

(** The template arguments [N] and [M] are [int]s, 32 bits wide. *)
Definition INT_MAX : Z := 2147483647%Z.

(** The product of two [int]s.  Inside the range it is the product; a
    product that leaves the range is wrapped around to 32 bits. *)
Definition int_mul (x y : Z) : Z :=
  ((x * y + 2147483648) mod 4294967296 - 2147483648)%Z.

Section MatrixTypes.

(** The macro is defined by the build, not by the header. *)
Variable USE_EIGEN_DYNAMIC_THRESHHOLD : Z.

Definition dynamicMatrix (N M : Z) : bool :=
  (int_mul N M >? USE_EIGEN_DYNAMIC_THRESHHOLD)%Z.

Definition MatrixType (ScalarType : ScalarKind) (N M : Z) : EigenMatrix :=
  {| Scalar := ScalarType; RowsAtCompileTime := N; ColsAtCompileTime := M |}.

Definition AutoMatrixType (ScalarType : ScalarKind) (N M : Z) : EigenMatrix :=
  if dynamicMatrix N M
  then {| Scalar := double_t;
          RowsAtCompileTime := Dynamic; ColsAtCompileTime := Dynamic |}
  else {| Scalar := double_t;
          RowsAtCompileTime := N; ColsAtCompileTime := N |}.

Definition SquareMatrixType (ScalarType : ScalarKind) (N : Z) : EigenMatrix :=
  MatrixType ScalarType N N.

End MatrixTypes.

(** A matrix type can hold an [L x R] matrix over [S] when its scalar is [S]
    and each compile-time size is either dynamic or the wanted one. *)
Definition holds (ty : EigenMatrix) (S : ScalarKind) (L R : Z) : Prop :=
  Scalar ty = S
  /\ (RowsAtCompileTime ty = Dynamic \/ RowsAtCompileTime ty = L)
  /\ (ColsAtCompileTime ty = Dynamic \/ ColsAtCompileTime ty = R).

(** ** extractJacobi *)

(** The loop [jacobi.row(j) = result(j).v] over [j = 0 .. _LDOF - 1], where
    [_LDOF] is the size of [result]. *)
Definition extractJacobi (result : list Jet) : Matrix :=
  let _LDOF := length result in
  map (fun j => ceres.v (nth j result (ceres.zero 0))) (seq 0 _LDOF).

(** ** Manifolds *)

(** Modelled from the spec: a manifold that is not a CompoundManifold, as the
    header uses it.  The concrete manifolds live outside the header; the
    header needs the type over [double], the same type over jets, its [DOF],
    [operator+] applied to a jet vector and [operator-] of a jet-valued
    instance and a [double]-valued one, which yields a jet vector. *)
Record AtomicManifold : Type :=
  { carrier : Type;
    jet_carrier : Type;
    DOF : nat;
    boxplus : carrier -> list Jet -> jet_carrier;
    boxminus : jet_carrier -> carrier -> list Jet }.

(** Modelled from the spec: a manifold type is atomic, or a CompoundManifold
    that declares its [DOF] and whose [forEachManifoldWithOther] visits the
    listed sub-manifolds in declared order (plain vector components are not
    visited: "for vectors the Jacobian is the Identity"). *)
#[warning="-register-all"]
Inductive ManifoldType : Type :=
| Atomic (M : AtomicManifold)
| Compound (DOF : nat) (subs : list ManifoldType).

(** Induction over manifold types, with the hypothesis for every visited
    sub-manifold of a compound. *)
Fixpoint ManifoldType_induction (P : ManifoldType -> Prop)
  (HAtomic : forall M, P (Atomic M))
  (HCompound : forall d subs, Forall P subs -> P (Compound d subs))
  (T : ManifoldType) {struct T} : P T :=
  match T with
  | Atomic M => HAtomic M
  | Compound d subs =>
      HCompound d subs
        ((fix all (l : list ManifoldType) : Forall P l :=
            match l with
            | [] => @Forall_nil _ P
            | Sub :: l' =>
                @Forall_cons _ P Sub l'
                  (ManifoldType_induction HAtomic HCompound Sub) (all l')
            end) subs)
  end.

(** [std::is_base_of<CompoundManifold, ManifoldType>::value]. *)
Definition is_CompoundManifold (T : ManifoldType) : bool :=
  match T with Atomic _ => false | Compound _ _ => true end.

(** [DOFOf<T>], which for a manifold is [StateInfo<T, true>::DOF = T::DOF]. *)
Definition DOFOf (T : ManifoldType) : nat :=
  match T with Atomic M => DOF M | Compound d _ => d end.

(** The values of a manifold type: for a compound, one value per visited
    sub-manifold. *)
Fixpoint instance (T : ManifoldType) : Type :=
  match T with
  | Atomic M => carrier M
  | Compound _ subs =>
      fold_right (fun Sub acc => (instance Sub * acc)%type) unit subs
  end.

Definition instances (subs : list ManifoldType) : Type :=
  fold_right (fun Sub acc => (instance Sub * acc)%type) unit subs.

(** Modelled from the spec: [ref1.forEachManifoldWithOther(visitor, ref2)]
    calls [visitor(sub, other_sub)] once per visited sub-manifold, in
    declared order.  The visitor of the header captures [D] and [dof] by
    reference; they are the state [St] threaded through the calls, and a
    failed Eigen assertion inside a call ends the iteration. *)
Section ForEach.

Variable St : Type.
Variable visitor : forall Sub : ManifoldType,
    instance Sub -> instance Sub -> St -> option St.

Fixpoint forEachManifoldWithOther (subs : list ManifoldType)
  : instances subs -> instances subs -> St -> option St :=
  match subs return instances subs -> instances subs -> St -> option St with
  | [] => fun _ _ st => Some st
  | Sub :: subs' => fun ref1 ref2 st =>
      match visitor Sub (fst ref1) (fst ref2) st with
      | Some st' => forEachManifoldWithOther subs' (snd ref1) (snd ref2) st'
      | None => None
      end
  end.

End ForEach.

(** ** transformReferenceJacobian *)

(** The overload with the expected value [Er1].  In the compound branch the
    state of the lambda [calcManifoldJacobian] is the pair [(D, dof)].
    [getDerivator<DOF>()] is read as [derivator DOF], the vector it returns
    in every reachable state of its statics. *)
Fixpoint transformReferenceJacobian (T : ManifoldType)
  : instance T -> instance T -> Vector -> option Matrix :=
  match T return instance T -> instance T -> Vector -> option Matrix with
  | Atomic M => fun ref1 ref2 Er1 =>
      Some (extractJacobi
              (boxminus M
                 (boxplus M ref1 (vadd Er1 (derivator (DOF M)))) ref2))
  | Compound DOF subs => fun ref1 ref2 Er1 =>
      let D := Identity DOF DOF in
      let dof := 0 in
      let calcManifoldJacobian :=
        fun (Sub : ManifoldType) (manifold other_manifold : instance Sub)
            (st : Matrix * nat) =>
          let (D, dof) := st in
          let curDOF := DOFOf Sub in
          match segment Er1 dof curDOF with
          | Some cur_Er1 =>
              match transformReferenceJacobian Sub manifold other_manifold
                      cur_Er1 with
              | Some J =>
                  match setBlock D dof dof curDOF curDOF J with
                  | Some D' => Some (D', dof + curDOF)
                  | None => None
                  end
              | None => None
              end
          | None => None
          end in
      match forEachManifoldWithOther calcManifoldJacobian subs ref1 ref2
              (D, dof) with
      | Some (D', _) => Some D'
      | None => None
      end
  end.

(** The overload without [Er1]. *)
Fixpoint transformReferenceJacobian0 (T : ManifoldType)
  : instance T -> instance T -> option Matrix :=
  match T return instance T -> instance T -> option Matrix with
  | Atomic M => fun ref1 ref2 =>
      Some (extractJacobi
              (boxminus M (boxplus M ref1 (derivator (DOF M))) ref2))
  | Compound DOF subs => fun ref1 ref2 =>
      let D := Identity DOF DOF in
      let dof := 0 in
      let calcManifoldJacobian :=
        fun (Sub : ManifoldType) (manifold other_manifold : instance Sub)
            (st : Matrix * nat) =>
          let (D, dof) := st in
          let curDOF := DOFOf Sub in
          match transformReferenceJacobian0 Sub manifold other_manifold with
          | Some J =>
              match setBlock D dof dof curDOF curDOF J with
              | Some D' => Some (D', dof + curDOF)
              | None => None
              end
          | None => None
          end in
      match forEachManifoldWithOther calcManifoldJacobian subs ref1 ref2
              (D, dof) with
      | Some (D', _) => Some D'
      | None => None
      end
  end.

(** The lambda of the overload with [Er1], named. *)
Definition calcManifoldJacobian (Er1 : Vector) (Sub : ManifoldType)
  (manifold other_manifold : instance Sub) (st : Matrix * nat)
  : option (Matrix * nat) :=
  let (D, dof) := st in
  let curDOF := DOFOf Sub in
  match segment Er1 dof curDOF with
  | Some cur_Er1 =>
      match transformReferenceJacobian Sub manifold other_manifold cur_Er1 with
      | Some J =>
          match setBlock D dof dof curDOF curDOF J with
          | Some D' => Some (D', dof + curDOF)
          | None => None
          end
      | None => None
      end
  | None => None
  end.

(** The lambda of the overload without [Er1], named. *)
Definition calcManifoldJacobian0 (Sub : ManifoldType)
  (manifold other_manifold : instance Sub) (st : Matrix * nat)
  : option (Matrix * nat) :=
  let (D, dof) := st in
  let curDOF := DOFOf Sub in
  match transformReferenceJacobian0 Sub manifold other_manifold with
  | Some J =>
      match setBlock D dof dof curDOF curDOF J with
      | Some D' => Some (D', dof + curDOF)
      | None => None
      end
  | None => None
  end.

(** A compound type is well formed when the blocks of its visited
    sub-manifolds fit into its declared [DOF], and so on downwards. *)
Fixpoint well_formed (T : ManifoldType) : Prop :=
  match T with
  | Atomic _ => True
  | Compound d subs =>
      list_sum (map DOFOf subs) <= d
      /\ fold_right (fun Sub acc => well_formed Sub /\ acc) True subs
  end.

(** The retraction property of an atomic manifold on the derivator's seed:
    the derivative components of [(ref + seed) - ref] are those of [seed]. *)
Definition lawful_atomic (M : AtomicManifold) : Prop :=
  forall ref : carrier M,
    map ceres.v (boxminus M (boxplus M ref (derivator (DOF M))) ref)
    = map ceres.v (derivator (DOF M)).

Fixpoint lawful (T : ManifoldType) : Prop :=
  match T with
  | Atomic M => lawful_atomic M
  | Compound _ subs => fold_right (fun Sub acc => lawful Sub /\ acc) True subs
  end.

(** Modelled from the spec: the scalar manifold of the end-to-end scenario,
    with [+(x, d) = x + d] and [-(x, y) = x - y]; [d] is a vector of one jet
    and [x - y] a vector of one jet. *)
Definition Scalar1D : AtomicManifold :=
  {| carrier := double;
     jet_carrier := Jet;
     DOF := 1;
     boxplus := fun x d => ceres.add_scalar x (nth 0 d (ceres.zero 1));
     boxminus := fun x y => [ceres.sub_scalar x y] |}.

(** A type tagged as a manifold whose [-] is no local-coordinates map:
    [x + d] adds the jet of [d] to [x], and [x - y] is [x * x - y * y]. *)
Definition Square1D : AtomicManifold :=
  {| carrier := double;
     jet_carrier := Jet;
     DOF := 1;
     boxplus := fun x d => ceres.add_scalar x (nth 0 d (ceres.zero 1));
     boxminus := fun x y =>
       [ceres.sub_scalar (ceres.mul x x) (PrimFloat.mul y y)] |}.

(** A retraction in other units: [x + d] is [x + d / 49] and [x - y] is
    [(x - y) * 49], which undo each other over the reals. *)
Definition Scaled1D : AtomicManifold :=
  {| carrier := double;
     jet_carrier := Jet;
     DOF := 1;
     boxplus := fun x d =>
       ceres.add_scalar x (ceres.div_scalar (nth 0 d (ceres.zero 1)) 49%float);
     boxminus := fun x y =>
       [ceres.mul_scalar (ceres.sub_scalar x y) 49%float] |}.

(** The composite of the end-to-end scenario: two scalars. *)
Definition TwoScalars : ManifoldType :=
  Compound 2 [Atomic Scalar1D; Atomic Scalar1D].

(** A composite of one scalar manifold and a plain vector of two
    coefficients, which the iteration does not visit. *)
Definition ScalarAndVector : ManifoldType := Compound 3 [Atomic Scalar1D].

(** ** The block structure the specification describes *)

(** Some visited block, laid out from offset [o] on, holds both [i] and [j]. *)
Fixpoint same_block (dofs : list nat) (o i j : nat) : bool :=
  match dofs with
  | [] => false
  | d :: dofs' =>
      (in_block o d i && in_block o d j) || same_block dofs' (o + d) i j
  end.

(** Walking the sub-manifold pairs in order from offset [o]: the block of
    [D] at [(o, o)] is the Jacobian of the pair for the slice of [Er1] at
    [o], and the walk goes on at [o + d]. *)
Fixpoint diagonal_blocks (Er1 : Vector) (D : Matrix) (subs : list ManifoldType)
  : instances subs -> instances subs -> nat -> Prop :=
  match subs return instances subs -> instances subs -> nat -> Prop with
  | [] => fun _ _ _ => True
  | Sub :: subs' => fun ref1 ref2 o =>
      (exists cur_Er1 J,
          segment Er1 o (DOFOf Sub) = Some cur_Er1
          /\ transformReferenceJacobian Sub (fst ref1) (fst ref2) cur_Er1
             = Some J
          /\ forall i j, i < DOFOf Sub -> j < DOFOf Sub ->
                         coeff D (o + i) (o + j) = coeff J i j)
      /\ diagonal_blocks Er1 D subs' (snd ref1) (snd ref2) (o + DOFOf Sub)
  end.

(** The same walk for the overload without [Er1]. *)
Fixpoint diagonal_blocks0 (D : Matrix) (subs : list ManifoldType)
  : instances subs -> instances subs -> nat -> Prop :=
  match subs return instances subs -> instances subs -> nat -> Prop with
  | [] => fun _ _ _ => True
  | Sub :: subs' => fun ref1 ref2 o =>
      (exists J,
          transformReferenceJacobian0 Sub (fst ref1) (fst ref2) = Some J
          /\ forall i j, i < DOFOf Sub -> j < DOFOf Sub ->
                         coeff D (o + i) (o + j) = coeff J i j)
      /\ diagonal_blocks0 D subs' (snd ref1) (snd ref2) (o + DOFOf Sub)
  end.

(** Both lambdas have one shape: compute a block for the pair at the current
    offset, write it on the diagonal, advance the offset. *)
Section Walk.

Variable blockOf : forall Sub : ManifoldType,
    instance Sub -> instance Sub -> nat -> option Matrix.

Definition writeBlock (Sub : ManifoldType)
  (manifold other_manifold : instance Sub) (st : Matrix * nat)
  : option (Matrix * nat) :=
  let (D, dof) := st in
  match blockOf Sub manifold other_manifold dof with
  | Some J =>
      match setBlock D dof dof (DOFOf Sub) (DOFOf Sub) J with
      | Some D' => Some (D', dof + DOFOf Sub)
      | None => None
      end
  | None => None
  end.

Fixpoint blocks_written (D : Matrix) (subs : list ManifoldType)
  : instances subs -> instances subs -> nat -> Prop :=
  match subs return instances subs -> instances subs -> nat -> Prop with
  | [] => fun _ _ _ => True
  | Sub :: subs' => fun ref1 ref2 o =>
      (exists J,
          blockOf Sub (fst ref1) (fst ref2) o = Some J
          /\ forall i j, i < DOFOf Sub -> j < DOFOf Sub ->
                         coeff D (o + i) (o + j) = coeff J i j)
      /\ blocks_written D subs' (snd ref1) (snd ref2) (o + DOFOf Sub)
  end.

(** Inside a matrix of size [n] the block of [Sub] can be computed. *)
Definition block_available (n : nat) (Sub : ManifoldType) : Prop :=
  forall m1 m2 o, o + DOFOf Sub <= n ->
                  exists J, blockOf Sub m1 m2 o = Some J.

End Walk.

(** The block of the overload with [Er1]: the recursive call on the slice. *)
Definition block_with (Er1 : Vector) (Sub : ManifoldType)
  (m1 m2 : instance Sub) (o : nat) : option Matrix :=
  match segment Er1 o (DOFOf Sub) with
  | Some cur_Er1 => transformReferenceJacobian Sub m1 m2 cur_Er1
  | None => None
  end.

(** The block of the overload without [Er1]. *)
Definition block_without (Sub : ManifoldType) (m1 m2 : instance Sub) (o : nat)
  : option Matrix :=
  transformReferenceJacobian0 Sub m1 m2.

(** The overload with [Er1] returns a matrix for every [Er1] of the type's
    [DOF]. *)
Definition returns_with (Sub : ManifoldType) : Prop :=
  forall (ref1 ref2 : instance Sub) (Er1 : Vector),
    length Er1 = DOFOf Sub ->
    exists J, transformReferenceJacobian Sub ref1 ref2 Er1 = Some J.

(** The overload without [Er1] returns a matrix. *)
Definition returns_without (Sub : ManifoldType) : Prop :=
  forall ref1 ref2 : instance Sub,
    exists J, transformReferenceJacobian0 Sub ref1 ref2 = Some J.

(** The overload without [Er1] returns the identity on equal references. *)
Definition identity_on_diagonal (Sub : ManifoldType) : Prop :=
  forall ref : instance Sub,
    transformReferenceJacobian0 Sub ref ref
    = Some (Identity (DOFOf Sub) (DOFOf Sub)).

(** On the zero vector the overload with [Er1] agrees with the other one. *)
Definition agrees_on_Zero (Sub : ManifoldType) : Prop :=
  forall ref1 ref2 : instance Sub,
    transformReferenceJacobian Sub ref1 ref2 (Zero (DOFOf Sub))
    = transformReferenceJacobian0 Sub ref1 ref2.

(** ** Covariance checks

    Eigen's decompositions and products are outside the header: the LDLT
    decomposition, the self-adjoint eigen solver, the inverse and the matrix
    product are parameters. *)

Inductive ComputationInfo : Set :=
| Success | NumericalIssue | NoConvergence | InvalidInput.

Definition ComputationInfo_eqb (x y : ComputationInfo) : bool :=
  match x, y with
  | Success, Success | NumericalIssue, NumericalIssue
  | NoConvergence, NoConvergence | InvalidInput, InvalidInput => true
  | _, _ => false
  end.

(** What the header reads of an [Eigen::LDLT]. *)
Record LDLT : Set := { info : ComputationInfo; isPositive : bool }.

(** What the header reads of an [Eigen::SelfAdjointEigenSolver]. *)
Record SelfAdjointEigenSolver : Set :=
  { eigenvalues : Vector; eigenvectors : Matrix }.

(** [sV.asDiagonal()] as a dense matrix. *)
Definition asDiagonal (sV : Vector) : Matrix :=
  map (fun i => map (fun j => if i =? j then nth i sV 0%float else 0%float)
                  (seq 0 (length sV)))
      (seq 0 (length sV)).

(** The body of the loop over the eigenvalues; the state is [(sV, positive)]. *)
Definition clamp (eps : double) (st : Vector * bool) (i : nat)
  : Vector * bool :=
  let (sV, positive) := st in
  if PrimFloat.ltb (nth i sV 0%float) eps
  then (update sV i (fun _ => eps), false)
  else (sV, positive).

(** The eigenvalues after the first [k] rounds of the loop. *)
Definition clamped_upto (eps : double) (sV : Vector) (k : nat) : Vector :=
  map (fun i => if (i <? k) && PrimFloat.ltb (nth i sV 0%float) eps
                then eps else nth i sV 0%float)
      (seq 0 (length sV)).

(** No eigenvalue among the first [k] is below [eps]. *)
Definition none_below_upto (eps : double) (sV : Vector) (k : nat) : bool :=
  forallb (fun i => negb (PrimFloat.ltb (nth i sV 0%float) eps)) (seq 0 k).

Section Covariance.

(** Whether [assert] is compiled out. *)
Variable NDEBUG : bool.
Variable ldlt : Matrix -> LDLT.
Variable eigen_solver : Matrix -> SelfAdjointEigenSolver.
Variable inverse : Matrix -> Matrix.
Variable mul : Matrix -> Matrix -> Matrix.

Definition isPositiveDefinite (matrix : Matrix) : bool :=
  let _ldlt := ldlt matrix in
  ComputationInfo_eqb (info _ldlt) Success && isPositive _ldlt.

(** The matrix after the call; [None] when the closing [assert] is compiled
    in and fails. *)
Definition assurePositiveDefinite (matrix : Matrix) (eps : double)
  : option Matrix :=
  let svd := eigen_solver matrix in
  let sV := eigenvalues svd in
  let (sV', positive) :=
    fold_left (clamp eps) (seq 0 (length sV)) (sV, true) in
  if positive then Some matrix
  else
    let matrix' :=
      mul (mul (eigenvectors svd) (asDiagonal sV'))
          (inverse (eigenvectors svd)) in
    if NDEBUG || isPositiveDefinite matrix' then Some matrix' else None.

End Covariance.

(** Eigen's operations on 1x1 matrices, as a concrete instance of the
    parameters: the eigenvalue of [[x]] is [x] with eigenvector 1, and the
    decomposition succeeds and is positive when [x] is not negative. *)
Definition ldlt_1x1 (m : Matrix) : LDLT :=
  {| info := Success; isPositive := PrimFloat.leb 0%float (coeff m 0 0) |}.

Definition eigen_solver_1x1 (m : Matrix) : SelfAdjointEigenSolver :=
  {| eigenvalues := [coeff m 0 0]; eigenvectors := [[1%float]] |}.

Definition inverse_1x1 (m : Matrix) : Matrix :=
  [[PrimFloat.div 1%float (coeff m 0 0)]].

Definition mul_1x1 (x y : Matrix) : Matrix :=
  [[PrimFloat.mul (coeff x 0 0) (coeff y 0 0)]].

(** ** Finiteness checks *)

(** Eigen's [allFinite()]: no coefficient is NaN or infinite. *)
Definition allFinite (matrix : Matrix) : bool :=
  forallb (forallb PrimFloat.is_finite) matrix.

Definition isfinite (matrix : Matrix) : bool := allFinite matrix.

(** [assert_finite(first, args...)]: the arguments are checked from left to
    right, each by an [assert] that is compiled out under [NDEBUG]; the call
    without arguments does nothing.  [None] is the failed [assert]. *)
Fixpoint assert_finite (NDEBUG : bool) (args : list Matrix) : option unit :=
  match args with
  | [] => Some tt
  | first :: args' =>
      if NDEBUG || isfinite first
      then assert_finite NDEBUG args'
      else None
  end.

(** ** The noise macros *)

(** [NOISE_WITH_OTHER_NAME(noise, start, size)]. *)
Definition NOISE_WITH_OTHER_NAME (noise : Vector) (start size : nat)
  : option Vector :=
  segment noise start size.

(** [NOISE_WITHOUT_NOISE_NAME(start, size)], in a scope where [noise] names
    the vector. *)
Definition NOISE_WITHOUT_NOISE_NAME (noise : Vector) (start size : nat)
  : option Vector :=
  NOISE_WITH_OTHER_NAME noise start size.

(** What stands in a macro call's argument list: an argument of the caller
    or one of the two macro names [NOISE] appends. *)
Inductive MacroToken : Set :=
| caller_argument
| with_other_name
| without_noise_name.

(** [GET_NOISE_MACRO(_1, _2, _3, NAME, ...)] expands to its fourth
    argument; with fewer than four there is no expansion. *)
Definition GET_NOISE_MACRO (args : list MacroToken) : option MacroToken :=
  nth_error args 3.

(** [NOISE(...)] called with [n] arguments: the macro that is then applied
    to them. *)
Definition NOISE (n : nat) : option MacroToken :=
  GET_NOISE_MACRO
    (repeat caller_argument n ++ [with_other_name; without_noise_name]).

(** ** Vector-like manifolds *)

(** [+] and [-] hand the derivative parts of the perturbation through, as
    they do for vectors and scalars. *)
Definition vector_like (M : AtomicManifold) : Prop :=
  forall (ref1 ref2 : carrier M) (d : list Jet),
    length d = DOF M ->
    map ceres.v (boxminus M (boxplus M ref1 d) ref2) = map ceres.v d.

Fixpoint all_vector_like (T : ManifoldType) : Prop :=
  match T with
  | Atomic M => vector_like M
  | Compound _ subs =>
      fold_right (fun Sub acc => all_vector_like Sub /\ acc) True subs
  end.

(** Both overloads return the identity, whatever the references and the
    error are. *)
Definition identity_for_all_references (T : ManifoldType) : Prop :=
  (forall (ref1 ref2 : instance T) (Er1 : Vector),
      length Er1 = DOFOf T ->
      transformReferenceJacobian T ref1 ref2 Er1
      = Some (Identity (DOFOf T) (DOFOf T)))
  /\ (forall ref1 ref2 : instance T,
         transformReferenceJacobian0 T ref1 ref2
         = Some (Identity (DOFOf T) (DOFOf T))).

(** * Properties *)

(** ** Lists and matrices *)

Lemma length_update (A : Type) (f : A -> A) (l : list A) (i : nat) :
  length (update l i f) = length l.
Proof.
  revert i; induction l as [|x l IH]; intros [|i]; simpl; auto.
Qed.

Lemma nth_update (A : Type) (f : A -> A) (d : A) (l : list A) (i k : nat) :
  i < length l ->
  nth k (update l i f) d = if k =? i then f (nth k l d) else nth k l d.
Proof.
  revert i k; induction l as [|x l IH]; intros i k Hi; simpl in Hi.
  - lia.
  - destruct i as [|i], k as [|k]; simpl; auto.
    apply IH; lia.
Qed.

Lemma length_mapi_from (A B : Type) (f : nat -> A -> B) (l : list A) (k : nat) :
  length (mapi_from k f l) = length l.
Proof.
  revert k; induction l as [|x l IH]; intro k; simpl; auto.
Qed.

Lemma nth_mapi_from (A B : Type) (f : nat -> A -> B) (dA : A) (dB : B)
  (l : list A) (k i : nat) :
  i < length l ->
  nth i (mapi_from k f l) dB = f (k + i) (nth i l dA).
Proof.
  revert k i; induction l as [|x l IH]; intros k i Hi; simpl in Hi.
  - lia.
  - destruct i as [|i]; simpl.
    + now rewrite Nat.add_0_r.
    + rewrite IH by lia. f_equal. lia.
Qed.

Lemma nth_map_seq (A : Type) (f : nat -> A) (d : A) (n i : nat) :
  i < n -> nth i (map f (seq 0 n)) d = f i.
Proof.
  intro Hi.
  rewrite (nth_indep _ d (f 0)) by now rewrite length_map, length_seq.
  rewrite (map_nth f (seq 0 n) 0 i), seq_nth by assumption.
  reflexivity.
Qed.

Lemma has_dims_Identity (n m : nat) : has_dims n m (Identity n m).
Proof.
  split.
  - unfold Identity. now rewrite length_map, length_seq.
  - unfold Identity. apply Forall_forall. intros row Hrow.
    apply in_map_iff in Hrow as [i [<- _]].
    now rewrite length_map, length_seq.
Qed.

Lemma coeff_Identity (n m i j : nat) :
  i < n -> j < m ->
  coeff (Identity n m) i j = if i =? j then 1%float else 0%float.
Proof.
  intros Hi Hj. unfold coeff, Identity.
  rewrite (nth_map_seq _ [] Hi).
  now rewrite (nth_map_seq _ 0%float Hj).
Qed.

Lemma has_dims_row (n m : nat) (D : Matrix) (i : nat) :
  has_dims n m D -> i < n -> length (nth i D []) = m.
Proof.
  intros [Hn Hrows] Hi.
  rewrite Forall_forall in Hrows. apply Hrows, nth_In. lia.
Qed.

Lemma coeff_outside (n m : nat) (D : Matrix) (i j : nat) :
  has_dims n m D -> n <= i \/ m <= j -> coeff D i j = 0%float.
Proof.
  intros HD Hij. unfold coeff.
  destruct (Nat.lt_ge_cases i n) as [Hi | Hi].
  - apply nth_overflow. rewrite (has_dims_row HD Hi). lia.
  - rewrite (nth_overflow D []) by (destruct HD; lia). now destruct j.
Qed.

(** Two matrices of the same size with the same coefficients are equal. *)
Lemma Matrix_ext (n m : nat) (A B : Matrix) :
  has_dims n m A -> has_dims n m B ->
  (forall i j, i < n -> j < m -> coeff A i j = coeff B i j) ->
  A = B.
Proof.
  intros HA HB Hc.
  apply (nth_ext A B [] []).
  - destruct HA, HB; congruence.
  - intros i Hi. assert (Hin : i < n) by (destruct HA; lia).
    apply (nth_ext _ _ 0%float 0%float).
    + now rewrite (has_dims_row HA Hin), (has_dims_row HB Hin).
    + intros j Hj. rewrite (has_dims_row HA Hin) in Hj. now apply Hc.
Qed.

Lemma in_block_spec (o d i : nat) :
  in_block o d i = true <-> o <= i < o + d.
Proof.
  unfold in_block. rewrite andb_true_iff, Nat.leb_le, Nat.ltb_lt. tauto.
Qed.

Lemma in_block_false (o d i : nat) :
  in_block o d i = false <-> i < o \/ o + d <= i.
Proof.
  unfold in_block. rewrite andb_false_iff, Nat.leb_gt, Nat.ltb_ge. tauto.
Qed.

(** A block assignment inside the matrix succeeds, keeps the dimensions and
    changes exactly the coefficients of the block. *)
Lemma setBlock_inside (n : nat) (D B : Matrix) (o d : nat) :
  has_dims n n D -> o + d <= n ->
  exists D',
    setBlock D o o d d B = Some D'
    /\ has_dims n n D'
    /\ forall i j,
        coeff D' i j = if in_block o d i && in_block o d j
                       then coeff B (i - o) (j - o)
                       else coeff D i j.
Proof.
  intros HD Hod. unfold setBlock.
  assert (Hchk : (o + d <=? rows D)
                 && forallb (fun row => o + d <=? length row) D = true).
  { apply andb_true_iff; split.
    - apply Nat.leb_le. unfold rows. destruct HD; lia.
    - apply forallb_forall. intros row Hrow. apply Nat.leb_le.
      destruct HD as [_ HF]. rewrite Forall_forall in HF.
      rewrite (HF row Hrow). exact Hod. }
  rewrite Hchk. eexists; split; [reflexivity | split].
  - split.
    + rewrite length_mapi_from. now destruct HD.
    + apply Forall_forall. intros row Hrow.
      apply (In_nth _ _ []) in Hrow as [i [Hi <-]].
      rewrite length_mapi_from in Hi.
      rewrite (nth_mapi_from _ [] [] _ 0 Hi), length_mapi_from.
      apply (has_dims_row HD). destruct HD; lia.
  - intros i j.
    destruct (Nat.lt_ge_cases i n) as [Hi | Hi];
      [destruct (Nat.lt_ge_cases j n) as [Hj | Hj] |].
    + unfold coeff at 1.
      rewrite (nth_mapi_from _ [] [] D 0) by (destruct HD; lia).
      rewrite (nth_mapi_from _ 0%float 0%float _ 0)
        by now rewrite (has_dims_row HD Hi).
      reflexivity.
    + replace (in_block o d j) with false
        by (symmetry; apply in_block_false; lia).
      rewrite andb_false_r.
      unfold coeff.
      rewrite (nth_mapi_from _ [] [] D 0) by (destruct HD; lia).
      rewrite !nth_overflow;
        rewrite ?length_mapi_from, ?(has_dims_row HD Hi); auto.
    + replace (in_block o d i) with false
        by (symmetry; apply in_block_false; lia).
      simpl. unfold coeff.
      rewrite !(nth_overflow _ [])
        by (rewrite ?length_mapi_from; destruct HD; lia).
      reflexivity.
Qed.

Lemma setBlock_outside (n : nat) (D B : Matrix) (o d : nat) :
  has_dims n n D -> n < o + d -> setBlock D o o d d B = None.
Proof.
  intros [Hn _] Hod. unfold setBlock, rows.
  replace (o + d <=? length D) with false; [reflexivity |].
  symmetry. apply Nat.leb_gt. lia.
Qed.

(** ** getDerivator *)

Lemma unit_vector_update (Size i : nat) :
  i < Size ->
  update (repeat 0%float Size) i (fun _ => 1%float) = unit_vector Size i.
Proof.
  intro Hi.
  apply (nth_ext _ _ 0%float 0%float).
  - unfold unit_vector.
    now rewrite length_update, repeat_length, length_map, length_seq.
  - intros k Hk. rewrite length_update, repeat_length in Hk.
    rewrite nth_update by now rewrite repeat_length.
    unfold unit_vector. rewrite (nth_map_seq _ 0%float Hk).
    destruct (k =? i); [reflexivity | apply nth_repeat].
Qed.

Lemma seeded_0 (Size : nat) : seeded Size 0 = setZero Size.
Proof.
  unfold seeded, setZero, ceres.zero.
  apply (nth_ext _ _ (ceres.zero 0) (ceres.zero 0)).
  - now rewrite length_map, length_seq, repeat_length.
  - intros i Hi. rewrite length_map, length_seq in Hi.
    now rewrite (nth_map_seq _ _ Hi), nth_repeat_lt.
Qed.

Lemma seed_component_seeded (Size k : nat) :
  k < Size -> seed_component (seeded Size k) k = seeded Size (S k).
Proof.
  intro Hk. unfold seed_component.
  assert (Hlen : length (seeded Size k) = Size)
    by (unfold seeded; now rewrite length_map, length_seq).
  apply (nth_ext _ _ (ceres.zero 0) (ceres.zero 0)).
  - rewrite length_update, Hlen. unfold seeded.
    now rewrite length_map, length_seq.
  - intros i Hi. rewrite length_update, Hlen in Hi.
    rewrite nth_update by lia.
    unfold seeded. rewrite !(nth_map_seq _ _ Hi).
    destruct (Nat.eqb_spec i k) as [-> | Hik]; simpl.
    + rewrite Nat.ltb_irrefl.
      replace (k <? S k) with true by (symmetry; apply Nat.ltb_lt; lia).
      f_equal. now apply unit_vector_update.
    + replace (i <? S k) with (i <? k); [reflexivity |].
      destruct (Nat.ltb_spec i k), (Nat.ltb_spec i (S k)); auto; lia.
Qed.

Lemma derivator_rounds (Size k : nat) :
  k <= Size ->
  fold_left seed_component (seq 0 k) (setZero Size) = seeded Size k.
Proof.
  induction k as [|k IH]; intro Hk.
  - simpl. symmetry. apply seeded_0.
  - rewrite seq_S, fold_left_app, IH by lia. simpl.
    apply seed_component_seeded. lia.
Qed.

(** The closed form of the stored vector: zero scalar parts and the standard
    basis as derivative parts. *)
Lemma derivator_basis (Size : nat) :
  derivator Size
  = map (fun i => ceres.mkJet 0%float (unit_vector Size i)) (seq 0 Size).
Proof.
  unfold derivator. rewrite derivator_rounds by lia.
  unfold seeded. apply map_ext_in. intros i Hi.
  apply in_seq in Hi.
  replace (i <? Size) with true by (symmetry; apply Nat.ltb_lt; lia).
  reflexivity.
Qed.

Lemma length_derivator (Size : nat) : length (derivator Size) = Size.
Proof.
  rewrite derivator_basis. now rewrite length_map, length_seq.
Qed.

Lemma nth_derivator (Size i : nat) (d : Jet) :
  i < Size ->
  nth i (derivator Size) d = ceres.mkJet 0%float (unit_vector Size i).
Proof.
  intro Hi. rewrite derivator_basis. now apply nth_map_seq.
Qed.

(** Once the first call is over, the statics hold the stored vector. *)
Lemma reachable_result (Size : nat) (st : DerivatorStatics) :
  reachable Size st -> first_call st = false -> result st = derivator Size.
Proof.
  induction 1 as [res0 | st Hst IH]; simpl.
  - discriminate.
  - unfold getDerivator. destruct (first_call st) eqn:Hfc; simpl; auto.
Qed.

Lemma getDerivator_returns (Size : nat) (st : DerivatorStatics) :
  reachable Size st -> fst (getDerivator Size st) = derivator Size.
Proof.
  intro Hst. unfold getDerivator.
  destruct (first_call st) eqn:Hfc; simpl; [reflexivity |].
  now apply reachable_result.
Qed.

(** ** extractJacobi *)

Lemma extractJacobi_rows (res : list Jet) :
  extractJacobi res = map ceres.v res.
Proof.
  unfold extractJacobi.
  apply (nth_ext _ _ [] []).
  - now rewrite !length_map, length_seq.
  - intros j Hj. rewrite length_map, length_seq in Hj.
    rewrite (nth_map_seq _ _ Hj).
    rewrite (nth_indep _ [] (ceres.v (ceres.zero 0)))
      by now rewrite length_map.
    now rewrite map_nth.
Qed.

Lemma map_v_derivator (Size : nat) :
  map ceres.v (derivator Size) = Identity Size Size.
Proof.
  rewrite derivator_basis, map_map. unfold Identity, unit_vector. simpl.
  apply map_ext. intro i. apply map_ext. intro j.
  now rewrite Nat.eqb_sym.
Qed.

(** Adding the zero vector to the seed gives the seed back, bit for bit. *)
Lemma vadd_Zero_derivator (Size : nat) :
  vadd (Zero Size) (derivator Size) = derivator Size.
Proof.
  apply (nth_ext _ _ (ceres.zero 0) (ceres.zero 0)).
  - unfold vadd, Zero.
    rewrite length_map, length_combine, repeat_length, length_derivator.
    apply Nat.min_id.
  - intros i Hi. unfold vadd, Zero in *.
    rewrite length_map, length_combine, repeat_length, length_derivator,
      Nat.min_id in Hi.
    rewrite (nth_indep _ _
               (ceres.add_scalar (fst (0%float, ceres.zero 0))
                  (snd (0%float, ceres.zero 0))))
      by now rewrite length_map, length_combine, repeat_length,
           length_derivator, Nat.min_id.
    rewrite (map_nth (fun p => ceres.add_scalar (fst p) (snd p))).
    rewrite combine_nth by now rewrite repeat_length, length_derivator.
    rewrite nth_repeat, (nth_derivator _ Hi). reflexivity.
Qed.

(** ** The walk over the sub-manifolds *)

Lemma transformReferenceJacobian_Compound (d : nat) (subs : list ManifoldType)
  (ref1 ref2 : instances subs) (Er1 : Vector) :
  transformReferenceJacobian (Compound d subs) ref1 ref2 Er1
  = match forEachManifoldWithOther (calcManifoldJacobian Er1) subs ref1 ref2
            (Identity d d, 0) with
    | Some (D', _) => Some D'
    | None => None
    end.
Proof. reflexivity. Qed.

Lemma transformReferenceJacobian0_Compound (d : nat)
  (subs : list ManifoldType) (ref1 ref2 : instances subs) :
  transformReferenceJacobian0 (Compound d subs) ref1 ref2
  = match forEachManifoldWithOther calcManifoldJacobian0 subs ref1 ref2
            (Identity d d, 0) with
    | Some (D', _) => Some D'
    | None => None
    end.
Proof. reflexivity. Qed.

Lemma forEachManifoldWithOther_ext (St : Type)
  (f g : forall Sub : ManifoldType, instance Sub -> instance Sub ->
                                    St -> option St) :
  (forall Sub m1 m2 st, f Sub m1 m2 st = g Sub m1 m2 st) ->
  forall subs ref1 ref2 st,
    forEachManifoldWithOther f subs ref1 ref2 st
    = forEachManifoldWithOther g subs ref1 ref2 st.
Proof.
  intros Hfg subs. induction subs as [|Sub subs IH]; intros ref1 ref2 st.
  - reflexivity.
  - simpl. rewrite Hfg.
    destruct (g Sub (fst ref1) (fst ref2) st); [apply IH | reflexivity].
Qed.

Lemma well_formed_subs (subs : list ManifoldType) :
  fold_right (fun Sub acc => well_formed Sub /\ acc) True subs
  <-> Forall well_formed subs.
Proof.
  induction subs as [|Sub subs IH]; simpl.
  - split; auto.
  - rewrite IH. split.
    + intros [H1 H2]. now constructor.
    + intro H. inversion H. auto.
Qed.

Lemma lawful_subs (subs : list ManifoldType) :
  fold_right (fun Sub acc => lawful Sub /\ acc) True subs
  <-> Forall lawful subs.
Proof.
  induction subs as [|Sub subs IH]; simpl.
  - split; auto.
  - rewrite IH. split.
    + intros [H1 H2]. now constructor.
    + intro H. inversion H. auto.
Qed.

Lemma segment_inside (vec : Vector) (o d : nat) :
  o + d <= length vec ->
  exists cur, segment vec o d = Some cur /\ length cur = d.
Proof.
  intro H. unfold segment.
  replace (o + d <=? length vec) with true by (symmetry; now apply Nat.leb_le).
  eexists; split; [reflexivity |].
  rewrite length_firstn, length_skipn. lia.
Qed.

Lemma skipn_repeat (A : Type) (x : A) (n o : nat) :
  skipn o (repeat x n) = repeat x (n - o).
Proof.
  revert n; induction o as [|o IH]; intros [|n]; simpl; auto.
Qed.

Lemma firstn_repeat (A : Type) (x : A) (n d : nat) :
  d <= n -> firstn d (repeat x n) = repeat x d.
Proof.
  revert n; induction d as [|d IH]; intros [|n] H; simpl; auto.
  - lia.
  - f_equal. apply IH. lia.
Qed.

Lemma segment_Zero (n o d : nat) :
  segment (Zero n) o d = if o + d <=? n then Some (Zero d) else None.
Proof.
  unfold segment, Zero. rewrite repeat_length.
  destruct (Nat.leb_spec (o + d) n) as [H | H]; [| reflexivity].
  f_equal. rewrite skipn_repeat. apply firstn_repeat. lia.
Qed.

Lemma same_block_before (dofs : list nat) (o i j : nat) :
  i < o \/ j < o -> same_block dofs o i j = false.
Proof.
  revert o; induction dofs as [|d dofs IH]; intros o H; simpl.
  - reflexivity.
  - rewrite IH by lia. rewrite orb_false_r.
    apply andb_false_iff.
    destruct H; [left | right]; apply in_block_false; lia.
Qed.

Lemma same_block_after (dofs : list nat) (o i j : nat) :
  o + list_sum dofs <= i \/ o + list_sum dofs <= j ->
  same_block dofs o i j = false.
Proof.
  revert o; induction dofs as [|d dofs IH]; intros o H; simpl in *.
  - reflexivity.
  - rewrite IH by lia. rewrite orb_false_r.
    apply andb_false_iff.
    destruct H; [left | right]; apply in_block_false; lia.
Qed.

(** When every block is available and all of them fit, the walk succeeds,
    ends at the sum of the sizes, writes each block where the offset says
    and leaves every coefficient outside the blocks as it was. *)
Section WalkFacts.

Variable blockOf : forall Sub : ManifoldType,
    instance Sub -> instance Sub -> nat -> option Matrix.
Variable n : nat.

Lemma walk_inside (subs : list ManifoldType) :
  Forall (block_available blockOf n) subs ->
  forall (ref1 ref2 : instances subs) (D : Matrix) (o : nat),
    has_dims n n D ->
    o + list_sum (map DOFOf subs) <= n ->
    exists D',
      forEachManifoldWithOther (writeBlock blockOf) subs ref1 ref2 (D, o)
      = Some (D', o + list_sum (map DOFOf subs))
      /\ has_dims n n D'
      /\ blocks_written blockOf D' subs ref1 ref2 o
      /\ forall i j, same_block (map DOFOf subs) o i j = false ->
                     coeff D' i j = coeff D i j.
Proof.
  induction 1 as [|Sub subs Hav _ IH]; intros ref1 ref2 D o HD Hfit.
  - exists D. simpl. rewrite Nat.add_0_r. auto.
  - simpl in Hfit.
    destruct (Hav (fst ref1) (fst ref2) o) as [J HJ]; [lia |].
    destruct (@setBlock_inside n D J o (DOFOf Sub) HD) as (D1 & HS & HD1 & Hc1);
      [lia |].
    destruct (IH (snd ref1) (snd ref2) D1 (o + DOFOf Sub) HD1)
      as (D' & Hrun & HD' & Hblocks & Hframe); [lia |].
    exists D'.
    split; [simpl; rewrite HJ, HS, Hrun; f_equal; f_equal; lia |].
    split; [assumption |]. simpl.
    split; [split; [| assumption] |].
    + exists J. split; [exact HJ |]. intros i j Hi Hj.
      rewrite Hframe by (apply same_block_before; lia).
      rewrite Hc1.
      replace (in_block o (DOFOf Sub) (o + i)) with true
        by (symmetry; apply in_block_spec; lia).
      replace (in_block o (DOFOf Sub) (o + j)) with true
        by (symmetry; apply in_block_spec; lia).
      simpl. f_equal; lia.
    + intros i j Hij. apply orb_false_iff in Hij as [Hhead Htail].
      rewrite (Hframe _ _ Htail), Hc1, Hhead. reflexivity.
Qed.

End WalkFacts.

Lemma calcManifoldJacobian_writeBlock (Er1 : Vector) (Sub : ManifoldType)
  (m1 m2 : instance Sub) (st : Matrix * nat) :
  calcManifoldJacobian Er1 Sub m1 m2 st
  = writeBlock (block_with Er1) Sub m1 m2 st.
Proof.
  destruct st as [D dof]. unfold calcManifoldJacobian, writeBlock, block_with.
  destruct (segment Er1 dof (DOFOf Sub)); reflexivity.
Qed.

Lemma calcManifoldJacobian0_writeBlock (Sub : ManifoldType)
  (m1 m2 : instance Sub) (st : Matrix * nat) :
  calcManifoldJacobian0 Sub m1 m2 st = writeBlock block_without Sub m1 m2 st.
Proof. destruct st as [D dof]. reflexivity. Qed.

Lemma blocks_written_with (Er1 : Vector) (D : Matrix)
  (subs : list ManifoldType) (ref1 ref2 : instances subs) (o : nat) :
  blocks_written (block_with Er1) D subs ref1 ref2 o ->
  diagonal_blocks Er1 D subs ref1 ref2 o.
Proof.
  revert ref1 ref2 o. induction subs as [|Sub subs IH]; intros ref1 ref2 o.
  - trivial.
  - simpl. intros [(J & HJ & Hc) Hrest]. split; [| now apply IH].
    unfold block_with in HJ.
    destruct (segment Er1 o (DOFOf Sub)) as [cur |] eqn:Hseg; [| discriminate].
    exists cur, J. auto.
Qed.

Lemma blocks_written_without (D : Matrix) (subs : list ManifoldType)
  (ref1 ref2 : instances subs) (o : nat) :
  blocks_written block_without D subs ref1 ref2 o ->
  diagonal_blocks0 D subs ref1 ref2 o.
Proof.
  revert ref1 ref2 o. induction subs as [|Sub subs IH]; intros ref1 ref2 o.
  - trivial.
  - simpl. intros [HJ Hrest]. split; [exact HJ | now apply IH].
Qed.

(** ** Compound manifolds *)

Lemma compound_with (d : nat) (subs : list ManifoldType) :
  Forall returns_with subs ->
  list_sum (map DOFOf subs) <= d ->
  forall (ref1 ref2 : instances subs) (Er1 : Vector),
    length Er1 = d ->
    exists D,
      transformReferenceJacobian (Compound d subs) ref1 ref2 Er1 = Some D
      /\ has_dims d d D
      /\ diagonal_blocks Er1 D subs ref1 ref2 0
      /\ forall i j, same_block (map DOFOf subs) 0 i j = false ->
                     coeff D i j = coeff (Identity d d) i j.
Proof.
  intros Hsubs Hfit ref1 ref2 Er1 HEr1.
  assert (Hav : Forall (block_available (block_with Er1) d) subs).
  { eapply Forall_impl; [| exact Hsubs].
    intros Sub Hret m1 m2 o Ho. unfold block_with.
    destruct (@segment_inside Er1 o (DOFOf Sub)) as (cur & -> & Hcur); [lia |].
    now apply Hret. }
  destruct (@walk_inside _ _ _ Hav ref1 ref2 _ 0 (has_dims_Identity d d))
    as (D & Hrun & HD & Hblocks & Hframe); [simpl; lia |].
  exists D. rewrite transformReferenceJacobian_Compound.
  rewrite (forEachManifoldWithOther_ext _ _
             (calcManifoldJacobian_writeBlock Er1)), Hrun.
  repeat split; try apply HD; auto using blocks_written_with.
Qed.

Lemma compound_without (d : nat) (subs : list ManifoldType) :
  Forall returns_without subs ->
  list_sum (map DOFOf subs) <= d ->
  forall ref1 ref2 : instances subs,
    exists D,
      transformReferenceJacobian0 (Compound d subs) ref1 ref2 = Some D
      /\ has_dims d d D
      /\ diagonal_blocks0 D subs ref1 ref2 0
      /\ forall i j, same_block (map DOFOf subs) 0 i j = false ->
                     coeff D i j = coeff (Identity d d) i j.
Proof.
  intros Hsubs Hfit ref1 ref2.
  assert (Hav : Forall (block_available block_without d) subs).
  { eapply Forall_impl; [| exact Hsubs].
    intros Sub Hret m1 m2 o Ho. apply Hret. }
  destruct (@walk_inside _ _ _ Hav ref1 ref2 _ 0 (has_dims_Identity d d))
    as (D & Hrun & HD & Hblocks & Hframe); [simpl; lia |].
  exists D. rewrite transformReferenceJacobian0_Compound.
  rewrite (forEachManifoldWithOther_ext _ _ calcManifoldJacobian0_writeBlock),
    Hrun.
  repeat split; try apply HD; auto using blocks_written_without.
Qed.

(** On a well-formed type both overloads return a matrix. *)
Lemma transformReferenceJacobian_returns (T : ManifoldType) :
  well_formed T -> returns_with T.
Proof.
  induction T as [M | d subs IH] using ManifoldType_induction; intro Hwf.
  - intros ref1 ref2 Er1 _. eexists. reflexivity.
  - destruct Hwf as [Hfit Hsubs]. apply well_formed_subs in Hsubs.
    intros ref1 ref2 Er1 HEr1.
    assert (Hret : Forall returns_with subs).
    { rewrite Forall_forall in *. auto. }
    destruct (@compound_with d subs Hret Hfit ref1 ref2 Er1 HEr1)
      as (D & HD & _).
    now exists D.
Qed.

Lemma transformReferenceJacobian0_returns (T : ManifoldType) :
  well_formed T -> returns_without T.
Proof.
  induction T as [M | d subs IH] using ManifoldType_induction; intro Hwf.
  - intros ref1 ref2. eexists. reflexivity.
  - destruct Hwf as [Hfit Hsubs]. apply well_formed_subs in Hsubs.
    intros ref1 ref2.
    assert (Hret : Forall returns_without subs).
    { rewrite Forall_forall in *. auto. }
    destruct (compound_without Hret Hfit ref1 ref2) as (D & HD & _).
    now exists D.
Qed.

Lemma well_formed_returns (d : nat) (subs : list ManifoldType) :
  well_formed (Compound d subs) ->
  list_sum (map DOFOf subs) <= d
  /\ Forall returns_with subs /\ Forall returns_without subs.
Proof.
  intros [Hfit Hsubs]. apply well_formed_subs in Hsubs.
  split; [assumption |].
  split; (eapply Forall_impl; [| exact Hsubs]); intros Sub HSub.
  - now apply transformReferenceJacobian_returns.
  - now apply transformReferenceJacobian0_returns.
Qed.

(** ** The derivator's basis *)

Lemma derivative_columns_derivator (Size : nat) :
  derivative_columns Size (derivator Size) = Identity Size Size.
Proof.
  unfold derivative_columns, Identity.
  apply map_ext_in. intros k Hk. apply in_seq in Hk.
  rewrite derivator_basis, map_map. simpl.
  apply map_ext. intro i. unfold unit_vector.
  apply nth_map_seq. lia.
Qed.

(** C6.  In every state its statics can reach, [getDerivator<Size>()]
    returns the same vector of [Size] jets, fixed by [Size] alone: component
    [i] has scalar part 0 and the [i]-th standard basis vector of dimension
    [Size] as derivative part, so the matrix whose columns are the derivative
    parts is the [Size x Size] identity. *)
Theorem getDerivator_basis (Size : nat) (st : DerivatorStatics) :
  reachable Size st ->
  let res := fst (getDerivator Size st) in
  res = derivator Size
  /\ length res = Size
  /\ (forall i, i < Size ->
        ceres.a (nth i res (ceres.zero 0)) = 0%float
        /\ ceres.v (nth i res (ceres.zero 0)) = unit_vector Size i)
  /\ derivative_columns Size res = Identity Size Size.
Proof.
  intros Hst res. subst res. rewrite (getDerivator_returns Hst).
  split; [reflexivity |].
  split; [apply length_derivator |].
  split; [| apply derivative_columns_derivator].
  intros i Hi. rewrite (nth_derivator _ Hi). auto.
Qed.

Lemma getDerivator_basis_witness :
  reachable 3 (snd (getDerivator 3 {| result := []; first_call := true |}))
  /\ fst (getDerivator 3
            (snd (getDerivator 3 {| result := []; first_call := true |})))
     = [ceres.mkJet 0 [1; 0; 0]; ceres.mkJet 0 [0; 1; 0];
        ceres.mkJet 0 [0; 0; 1]]%float.
Proof.
  split.
  - apply reachable_call, reachable_init.
  - exact (proj1 (@getDerivator_basis 3 _
                    (reachable_call (reachable_init 3 [])))).
Defined.

(** ** Atomic manifolds *)

(** The perturbed error [Er1 + getDerivator<DOF>()]: component [i] has the
    value of [Er1] (zero added) and the [i]-th basis vector as derivative. *)
Lemma nth_vadd_derivator (Er1 : Vector) (n i : nat) :
  length Er1 = n -> i < n ->
  nth i (vadd Er1 (derivator n)) (ceres.zero 0)
  = ceres.mkJet (PrimFloat.add 0%float (nth i Er1 0%float)) (unit_vector n i).
Proof.
  intros HEr1 Hi. unfold vadd.
  assert (Hlen : length (combine Er1 (derivator n)) = n)
    by (rewrite length_combine, HEr1, length_derivator; apply Nat.min_id).
  rewrite (nth_indep _ _
             (ceres.add_scalar (fst (0%float, ceres.zero 0))
                (snd (0%float, ceres.zero 0))))
    by now rewrite length_map, Hlen.
  rewrite (map_nth (fun p => ceres.add_scalar (fst p) (snd p))).
  rewrite combine_nth by now rewrite HEr1, length_derivator.
  now rewrite (nth_derivator _ Hi).
Qed.

(** C1.  For a manifold that is not a CompoundManifold both overloads return
    the Jacobian extracted from the dual-number expression
    [ref1 + (Er1 + getDerivator<DOF>()) - ref2] (without [Er1] in the
    two-argument overload), whatever reachable state the derivator's statics
    are in: row [j] of the result is the derivative vector of component [j]
    of that expression.  For the scalar manifold with [x + d] and [x - y]
    the result is the 1x1 matrix [[1.0]] for all reference values, 3.0 and
    5.0 among them.  The perturbation is taken at zero: component [i] of
    [Er1 + getDerivator<DOF>()] has the value of [Er1] and the [i]-th basis
    vector as derivative part. *)
Theorem transformReferenceJacobian_atomic :
  (forall (M : AtomicManifold) (ref1 ref2 : carrier M) (Er1 : Vector)
          (st : DerivatorStatics),
      reachable (DOF M) st ->
      let seed := fst (getDerivator (DOF M) st) in
      is_CompoundManifold (Atomic M) = false
      /\ transformReferenceJacobian (Atomic M) ref1 ref2 Er1
         = Some (extractJacobi
                   (boxminus M (boxplus M ref1 (vadd Er1 seed)) ref2))
      /\ transformReferenceJacobian (Atomic M) ref1 ref2 Er1
         = Some (map ceres.v
                   (boxminus M (boxplus M ref1 (vadd Er1 seed)) ref2))
      /\ transformReferenceJacobian0 (Atomic M) ref1 ref2
         = Some (extractJacobi (boxminus M (boxplus M ref1 seed) ref2)))
  /\ (forall x y : double,
         transformReferenceJacobian0 (Atomic Scalar1D) x y
         = Some [[1%float]])
  /\ (forall x y e : double,
         transformReferenceJacobian (Atomic Scalar1D) x y [e]
         = Some [[1%float]])
  /\ transformReferenceJacobian0 (Atomic Scalar1D) 3%float 5%float
     = Some [[1%float]]
  /\ (forall (Er1 : Vector) (n i : nat),
         length Er1 = n -> i < n ->
         nth i (vadd Er1 (derivator n)) (ceres.zero 0)
         = ceres.mkJet (PrimFloat.add 0%float (nth i Er1 0%float))
             (unit_vector n i)).
Proof.
  split; [| repeat split; intros; try reflexivity;
            now apply nth_vadd_derivator].
  intros M ref1 ref2 Er1 st Hst seed. subst seed.
  rewrite (getDerivator_returns Hst).
  split; [reflexivity |].
  split; [reflexivity |].
  split; [| reflexivity].
  simpl. now rewrite extractJacobi_rows.
Qed.

Lemma transformReferenceJacobian_atomic_witness :
  reachable 1 {| result := []; first_call := true |}
  /\ transformReferenceJacobian (Atomic Scalar1D) 3%float 5%float [2%float]
     = Some (extractJacobi
               (boxminus Scalar1D
                  (boxplus Scalar1D 3%float
                     (vadd [2%float]
                        (fst (getDerivator 1
                                {| result := []; first_call := true |}))))
                  5%float)).
Proof.
  split.
  - apply reachable_init.
  - exact (proj1 (proj2
             (proj1 transformReferenceJacobian_atomic Scalar1D
                3%float 5%float [2%float] _ (reachable_init 1 [])))).
Defined.

(** ** The extracted matrix and its declared type *)

(** Row [j] of the extracted matrix is the derivative vector of element [j],
    and there are as many rows as elements. *)
Lemma extractJacobi_row (res : list Jet) (j : nat) :
  j < length res ->
  length (extractJacobi res) = length res
  /\ nth j (extractJacobi res) [] = ceres.v (nth j res (ceres.zero 0)).
Proof.
  intro Hj. unfold extractJacobi.
  rewrite length_map, length_seq. split; [reflexivity |].
  now apply nth_map_seq.
Qed.

Lemma int_mul_in_range (x y : Z) :
  (0 <= x)%Z -> (0 <= y)%Z -> (x * y <= INT_MAX)%Z -> int_mul x y = (x * y)%Z.
Proof.
  unfold INT_MAX, int_mul. intros Hx Hy Hxy.
  assert (0 <= x * y)%Z by now apply Z.mul_nonneg_nonneg.
  rewrite Z.mod_small by lia. lia.
Qed.

(** C5.  For sizes that are non-negative [int]s with a product inside the
    [int] range, the type [AutoMatrixType<ScalarType, _LDOF, _RDOF>] that
    [extractJacobi] declares for its result can hold an [_LDOF x _RDOF]
    matrix over [ScalarType] exactly when [ScalarType] is [double] and
    either the product of the sizes is above the threshold (dynamic storage)
    or the matrix is square: the fixed-size branch is
    [Eigen::Matrix<double, N, N>], so below the threshold a Jacobian with
    [_LDOF <> _RDOF] has no place in it. *)
Theorem extractJacobi_declared_type (USE_EIGEN_DYNAMIC_THRESHHOLD : Z)
  (ScalarType : ScalarKind) (_LDOF _RDOF : Z) :
  (0 <= _LDOF <= INT_MAX)%Z ->
  (0 <= _RDOF <= INT_MAX)%Z ->
  (_LDOF * _RDOF <= INT_MAX)%Z ->
  holds (AutoMatrixType USE_EIGEN_DYNAMIC_THRESHHOLD ScalarType _LDOF _RDOF)
        ScalarType _LDOF _RDOF
  <-> ScalarType = double_t
      /\ ((USE_EIGEN_DYNAMIC_THRESHHOLD < _LDOF * _RDOF)%Z \/ _LDOF = _RDOF).
Proof.
  intros HL HRange Hprod.
  unfold holds, AutoMatrixType, dynamicMatrix, Dynamic.
  rewrite (int_mul_in_range (proj1 HL) (proj1 HRange) Hprod).
  destruct (Z.gtb_spec (_LDOF * _RDOF) USE_EIGEN_DYNAMIC_THRESHHOLD)
    as [Hdyn | Hfix]; simpl.
  - split.
    + intros [HS _]. split; [now symmetry | now left].
    + intros [HS _]. split; [now symmetry | split; now left].
  - split.
    + intros (HS & _ & [HR | HR]); (split; [now symmetry |]); right; lia.
    + intros [HS [Hdyn | HLR]]; [lia |].
      split; [now symmetry |]. split; right; [reflexivity | assumption].
Qed.

Lemma extractJacobi_declared_type_witness :
  (0 <= 2 <= INT_MAX)%Z
  /\ (0 <= 3 <= INT_MAX)%Z
  /\ (2 * 3 <= INT_MAX)%Z
  /\ ~ holds (AutoMatrixType 16 double_t 2 3) double_t 2 3.
Proof.
  assert (HL : (0 <= 2 <= INT_MAX)%Z) by (unfold INT_MAX; lia).
  assert (HR : (0 <= 3 <= INT_MAX)%Z) by (unfold INT_MAX; lia).
  assert (HP : (2 * 3 <= INT_MAX)%Z) by (unfold INT_MAX; lia).
  split; [exact HL |]. split; [exact HR |]. split; [exact HP |].
  intro H.
  apply (proj1 (@extractJacobi_declared_type 16 double_t 2 3 HL HR HP)) in H.
  destruct H as [_ [H | H]]; lia.
Defined.

(** ** isPositiveDefinite *)

(** [isPositiveDefinite] returns true exactly when the LDLT decomposition
    reports success and its positivity flag is set; whenever the
    decomposition reports anything but success the answer is false, and
    there is no third outcome. *)
Lemma isPositiveDefinite_iff (ldlt : Matrix -> LDLT) (matrix : Matrix) :
  (isPositiveDefinite ldlt matrix = true
   <-> info (ldlt matrix) = Success /\ isPositive (ldlt matrix) = true)
  /\ (info (ldlt matrix) <> Success -> isPositiveDefinite ldlt matrix = false)
  /\ (isPositiveDefinite ldlt matrix = true
      \/ isPositiveDefinite ldlt matrix = false).
Proof.
  unfold isPositiveDefinite.
  destruct (ldlt matrix) as [i p]; simpl.
  split; [| split].
  - rewrite andb_true_iff. destruct i; simpl; intuition congruence.
  - intro Hi. destruct i; simpl; congruence.
  - destruct (ComputationInfo_eqb i Success && p); auto.
Qed.

(** C9.  A decomposition that does not report success gives false, never an
    error; but a successful one is not asked for strictly positive pivots:
    on 1x1 matrices [isPositiveDefinite] is true exactly when the
    coefficient, the only pivot, is at least zero, so the zero matrix, which
    is not positive definite, is reported as positive definite. *)
Theorem isPositiveDefinite_zero_pivot :
  (forall (ldlt : Matrix -> LDLT) (matrix : Matrix),
      info (ldlt matrix) <> Success ->
      isPositiveDefinite ldlt matrix = false)
  /\ (forall x : double,
         isPositiveDefinite ldlt_1x1 [[x]] = PrimFloat.leb 0%float x)
  /\ isPositiveDefinite ldlt_1x1 [[0%float]] = true
  /\ PrimFloat.ltb 0%float (coeff [[0%float]] 0 0) = false.
Proof.
  split; [| split; [| split]].
  - intros ldlt matrix Hinfo. unfold isPositiveDefinite.
    destruct (info (ldlt matrix)); simpl; congruence.
  - intro x. reflexivity.
  - reflexivity.
  - reflexivity.
Qed.

(** ** Block-diagonal assembly *)

(** C2.  For a well-formed CompoundManifold and an [Er1] of its [DOF], both
    overloads return a [DOF x DOF] matrix; walking the sub-manifold pairs in
    declared order with the offset starting at 0, the block at [(o, o)] is
    what the recursive call returns for the pair (on the slice of [Er1] at
    [o], or without a slice in the overload without [Er1]), the offset then
    advances by the pair's [DOF]; and every coefficient off the diagonal
    that no visited block holds is exactly zero. *)
Theorem transformReferenceJacobian_block_diagonal (d : nat)
  (subs : list ManifoldType) (ref1 ref2 : instance (Compound d subs))
  (Er1 : Vector) :
  well_formed (Compound d subs) ->
  length Er1 = d ->
  (exists D,
      transformReferenceJacobian (Compound d subs) ref1 ref2 Er1 = Some D
      /\ has_dims d d D
      /\ diagonal_blocks Er1 D subs ref1 ref2 0
      /\ forall i j, i < d -> j < d -> i <> j ->
                     same_block (map DOFOf subs) 0 i j = false ->
                     coeff D i j = 0%float)
  /\ (exists D,
         transformReferenceJacobian0 (Compound d subs) ref1 ref2 = Some D
         /\ has_dims d d D
         /\ diagonal_blocks0 D subs ref1 ref2 0
         /\ forall i j, i < d -> j < d -> i <> j ->
                        same_block (map DOFOf subs) 0 i j = false ->
                        coeff D i j = 0%float).
Proof.
  intros Hwf HEr1.
  destruct (well_formed_returns Hwf) as (Hfit & Hwith & Hwithout).
  assert (Hoff : forall i j, i < d -> j < d -> i <> j ->
                             coeff (Identity d d) i j = 0%float).
  { intros i j Hi Hj Hij. rewrite coeff_Identity by assumption.
    destruct (Nat.eqb_spec i j); [contradiction | reflexivity]. }
  split.
  - destruct (@compound_with d subs Hwith Hfit ref1 ref2 Er1 HEr1)
      as (D & Hrun & HD & Hblocks & Hframe).
    exists D. repeat split; try apply HD; auto.
    intros i j Hi Hj Hij Hsame. rewrite Hframe; auto.
  - destruct (@compound_without d subs Hwithout Hfit ref1 ref2)
      as (D & Hrun & HD & Hblocks & Hframe).
    exists D. repeat split; try apply HD; auto.
    intros i j Hi Hj Hij Hsame. rewrite Hframe; auto.
Qed.

Lemma well_formed_TwoScalars : well_formed TwoScalars.
Proof. simpl. repeat split. lia. Qed.

Lemma transformReferenceJacobian_block_diagonal_witness :
  well_formed TwoScalars
  /\ length (Zero 2) = 2
  /\ exists D,
      transformReferenceJacobian0 TwoScalars
        (1%float, (2%float, tt)) (3%float, (4%float, tt)) = Some D
      /\ has_dims 2 2 D.
Proof.
  split; [exact well_formed_TwoScalars |].
  split; [reflexivity |].
  destruct (proj2 (@transformReferenceJacobian_block_diagonal 2
                     [Atomic Scalar1D; Atomic Scalar1D]
                     (1%float, (2%float, tt)) (3%float, (4%float, tt))
                     (Zero 2) well_formed_TwoScalars eq_refl))
    as (D & HD & Hdims & _).
  exists D. split; assumption.
Defined.

(** C10.  In the compound case both overloads start the iteration from the
    [DOF x DOF] identity and offset 0; in the returned matrix every row and
    every column past the visited sub-manifolds, that is from the sum of
    their [DOF]s on, is still the identity's, whatever the references and
    [Er1] are. *)
Theorem transformReferenceJacobian_unvisited (d : nat)
  (subs : list ManifoldType) (ref1 ref2 : instance (Compound d subs))
  (Er1 : Vector) :
  well_formed (Compound d subs) ->
  length Er1 = d ->
  let visited := list_sum (map DOFOf subs) in
  (transformReferenceJacobian (Compound d subs) ref1 ref2 Er1
   = option_map fst
       (forEachManifoldWithOther (calcManifoldJacobian Er1) subs ref1 ref2
          (Identity d d, 0))
   /\ exists D,
       transformReferenceJacobian (Compound d subs) ref1 ref2 Er1 = Some D
       /\ forall i j, i < d -> j < d -> visited <= i \/ visited <= j ->
                      coeff D i j = if i =? j then 1%float else 0%float)
  /\ (transformReferenceJacobian0 (Compound d subs) ref1 ref2
      = option_map fst
          (forEachManifoldWithOther calcManifoldJacobian0 subs ref1 ref2
             (Identity d d, 0))
      /\ exists D,
          transformReferenceJacobian0 (Compound d subs) ref1 ref2 = Some D
          /\ forall i j, i < d -> j < d -> visited <= i \/ visited <= j ->
                         coeff D i j = if i =? j then 1%float else 0%float).
Proof.
  intros Hwf HEr1 visited.
  destruct (well_formed_returns Hwf) as (Hfit & Hwith & Hwithout).
  split; split.
  - rewrite transformReferenceJacobian_Compound.
    destruct (forEachManifoldWithOther _ _ _ _ _) as [[D' o] |]; reflexivity.
  - destruct (@compound_with d subs Hwith Hfit ref1 ref2 Er1 HEr1)
      as (D & Hrun & _ & _ & Hframe).
    exists D. split; [assumption |]. intros i j Hi Hj Hpast.
    rewrite Hframe by (apply same_block_after; simpl; exact Hpast).
    now apply coeff_Identity.
  - rewrite transformReferenceJacobian0_Compound.
    destruct (forEachManifoldWithOther _ _ _ _ _) as [[D' o] |]; reflexivity.
  - destruct (@compound_without d subs Hwithout Hfit ref1 ref2)
      as (D & Hrun & _ & _ & Hframe).
    exists D. split; [assumption |]. intros i j Hi Hj Hpast.
    rewrite Hframe by (apply same_block_after; simpl; exact Hpast).
    now apply coeff_Identity.
Qed.

Lemma well_formed_ScalarAndVector : well_formed ScalarAndVector.
Proof. simpl. repeat split. lia. Qed.

Lemma transformReferenceJacobian_unvisited_witness :
  well_formed ScalarAndVector
  /\ length (Zero 3) = 3
  /\ exists D,
      transformReferenceJacobian ScalarAndVector
        (1%float, tt) (3%float, tt) (Zero 3) = Some D
      /\ coeff D 2 2 = 1%float /\ coeff D 1 2 = 0%float.
Proof.
  split; [exact well_formed_ScalarAndVector |].
  split; [reflexivity |].
  destruct (proj2 (proj1 (@transformReferenceJacobian_unvisited 3
                            [Atomic Scalar1D] (1%float, tt) (3%float, tt)
                            (Zero 3) well_formed_ScalarAndVector eq_refl)))
    as (D & HD & Hid).
  exists D. split; [assumption |].
  split; apply Hid; simpl; lia.
Defined.

(** ** Same reference twice *)

Lemma setBlock_Identity (n o d : nat) :
  o + d <= n ->
  setBlock (Identity n n) o o d d (Identity d d) = Some (Identity n n).
Proof.
  intro Hfit.
  destruct (@setBlock_inside n (Identity n n) (Identity d d) o d
              (has_dims_Identity n n) Hfit) as (D' & -> & HD' & Hc).
  f_equal. apply (Matrix_ext HD' (has_dims_Identity n n)).
  intros i j Hi Hj. rewrite Hc.
  destruct (in_block o d i && in_block o d j) eqn:Hin; [| reflexivity].
  apply andb_true_iff in Hin as [Hbi Hbj].
  apply in_block_spec in Hbi, Hbj.
  rewrite !coeff_Identity by lia.
  destruct (Nat.eqb_spec (i - o) (j - o)), (Nat.eqb_spec i j);
    auto; lia.
Qed.

Lemma walk_Identity (n : nat) (subs : list ManifoldType) :
  Forall identity_on_diagonal subs ->
  forall (ref : instances subs) (o : nat),
    o + list_sum (map DOFOf subs) <= n ->
    forEachManifoldWithOther calcManifoldJacobian0 subs ref ref
      (Identity n n, o)
    = Some (Identity n n, o + list_sum (map DOFOf subs)).
Proof.
  induction 1 as [|Sub subs Hid _ IH]; intros ref o Hfit; simpl in *.
  - now rewrite Nat.add_0_r.
  - unfold calcManifoldJacobian0 at 1.
    rewrite Hid, setBlock_Identity by lia.
    rewrite IH by lia. f_equal. f_equal. lia.
Qed.

(** C3.  For an instance [ref] of a well-formed manifold type whose atomic
    parts have the retraction property, the overload without [Er1] applied
    to [ref] and [ref] returns the [DOF x DOF] identity. *)
Theorem transformReferenceJacobian0_same_reference (T : ManifoldType) :
  well_formed T -> lawful T ->
  forall ref : instance T,
    transformReferenceJacobian0 T ref ref
    = Some (Identity (DOFOf T) (DOFOf T)).
Proof.
  induction T as [M | d subs IH] using ManifoldType_induction;
    intros Hwf Hlaw ref.
  - simpl. f_equal. rewrite extractJacobi_rows, (Hlaw ref).
    apply map_v_derivator.
  - destruct Hwf as [Hfit Hwf]. apply well_formed_subs in Hwf.
    simpl in Hlaw. apply lawful_subs in Hlaw.
    assert (Hid : Forall identity_on_diagonal subs).
    { rewrite Forall_forall in *. intros Sub HSub. red. auto. }
    rewrite transformReferenceJacobian0_Compound.
    now rewrite (@walk_Identity d subs Hid ref 0 Hfit).
Qed.

Lemma lawful_Scalar1D : lawful_atomic Scalar1D.
Proof. intro ref. reflexivity. Qed.

Lemma transformReferenceJacobian0_same_reference_witness :
  well_formed TwoScalars
  /\ lawful TwoScalars
  /\ transformReferenceJacobian0 TwoScalars
       (1%float, (2%float, tt)) (1%float, (2%float, tt))
     = Some [[1; 0]; [0; 1]]%float.
Proof.
  assert (Hlaw : lawful TwoScalars)
    by (simpl; repeat split; exact lawful_Scalar1D).
  split; [exact well_formed_TwoScalars |].
  split; [exact Hlaw |].
  exact (@transformReferenceJacobian0_same_reference TwoScalars
           well_formed_TwoScalars Hlaw (1%float, (2%float, tt))).
Defined.

(** Without the retraction property the same reference twice does not give
    the identity: with [x - y = x * x - y * y] the result at 3.0 is [[6.0]],
    and with the retraction [x + d / 49], [(x - y) * 49] the rounding of
    [1.0 / 49.0 * 49.0] leaves [[0.99999999999999989]]. *)
Lemma transformReferenceJacobian0_same_reference_counterexample :
  transformReferenceJacobian0 (Atomic Square1D) 3%float 3%float
  = Some [[6%float]]
  /\ transformReferenceJacobian0 (Atomic Square1D) 3%float 3%float
     <> Some (Identity (DOFOf (Atomic Square1D)) (DOFOf (Atomic Square1D)))
  /\ transformReferenceJacobian0 (Atomic Scaled1D) 3%float 3%float
     = Some [[PrimFloat.mul (PrimFloat.div 1%float 49%float) 49%float]]
  /\ transformReferenceJacobian0 (Atomic Scaled1D) 3%float 3%float
     <> Some (Identity (DOFOf (Atomic Scaled1D)) (DOFOf (Atomic Scaled1D))).
Proof.
  split; [reflexivity |]. split; [| split; [reflexivity |]].
  - intro H.
    apply (f_equal (fun r => match r with
                             | Some m => PrimFloat.eqb (coeff m 0 0) 1%float
                             | None => false
                             end)) in H.
    vm_compute in H. discriminate H.
  - intro H.
    apply (f_equal (fun r => match r with
                             | Some m => PrimFloat.eqb (coeff m 0 0) 1%float
                             | None => false
                             end)) in H.
    vm_compute in H. discriminate H.
Qed.

(** ** The overload without [Er1] *)

Lemma setBlock_dims (n : nat) (D D' B : Matrix) (o d : nat) :
  has_dims n n D -> setBlock D o o d d B = Some D' -> has_dims n n D'.
Proof.
  intros HD HS.
  destruct (Nat.le_gt_cases (o + d) n) as [Hfit | Hout].
  - destruct (@setBlock_inside n D B o d HD Hfit) as (D1 & H1 & HD1 & _).
    congruence.
  - rewrite (@setBlock_outside n D B o d HD Hout) in HS. discriminate.
Qed.

Lemma walk_Zero (n : nat) (subs : list ManifoldType) :
  Forall agrees_on_Zero subs ->
  forall (ref1 ref2 : instances subs) (D : Matrix) (o : nat),
    has_dims n n D ->
    forEachManifoldWithOther (calcManifoldJacobian (Zero n)) subs ref1 ref2
      (D, o)
    = forEachManifoldWithOther calcManifoldJacobian0 subs ref1 ref2 (D, o).
Proof.
  induction 1 as [|Sub subs Hag _ IH]; intros ref1 ref2 D o HD.
  - reflexivity.
  - simpl. unfold calcManifoldJacobian at 1, calcManifoldJacobian0 at 1.
    rewrite segment_Zero.
    destruct (Nat.leb_spec (o + DOFOf Sub) n) as [Hfit | Hout].
    + rewrite Hag.
      destruct (transformReferenceJacobian0 Sub (fst ref1) (fst ref2))
        as [J |]; [| reflexivity].
      destruct (setBlock D o o (DOFOf Sub) (DOFOf Sub) J) as [D1 |] eqn:HS;
        [| reflexivity].
      apply IH. exact (@setBlock_dims n D D1 J o (DOFOf Sub) HD HS).
    + destruct (transformReferenceJacobian0 Sub (fst ref1) (fst ref2))
        as [J |]; [| reflexivity].
      now rewrite (@setBlock_outside n D J o (DOFOf Sub) HD Hout).
Qed.

(** C4.  For every manifold type and every pair of references, the overload
    without [Er1] has the same outcome as the overload with [Er1] called on
    the zero tangent vector of the type's [DOF]. *)
Theorem transformReferenceJacobian0_is_Zero (T : ManifoldType)
  (ref1 ref2 : instance T) :
  transformReferenceJacobian0 T ref1 ref2
  = transformReferenceJacobian T ref1 ref2 (Zero (DOFOf T)).
Proof.
  symmetry. revert ref1 ref2.
  induction T as [M | d subs IH] using ManifoldType_induction;
    intros ref1 ref2.
  - simpl. now rewrite vadd_Zero_derivator.
  - rewrite transformReferenceJacobian_Compound,
      transformReferenceJacobian0_Compound.
    simpl DOFOf.
    now rewrite (@walk_Zero d subs IH ref1 ref2 _ 0 (has_dims_Identity d d)).
Qed.

(** ** assurePositiveDefinite *)

Lemma clamp_round (eps : double) (sV : Vector) (k : nat) :
  k < length sV ->
  clamp eps (clamped_upto eps sV k, none_below_upto eps sV k) k
  = (clamped_upto eps sV (S k), none_below_upto eps sV (S k)).
Proof.
  intro Hk. unfold clamp.
  assert (Hlen : forall m, length (clamped_upto eps sV m) = length sV)
    by (intro m; unfold clamped_upto; now rewrite length_map, length_seq).
  assert (Hnth : nth k (clamped_upto eps sV k) 0%float = nth k sV 0%float).
  { unfold clamped_upto. rewrite (nth_map_seq _ _ Hk).
    now rewrite Nat.ltb_irrefl. }
  assert (Hflag : none_below_upto eps sV (S k)
                  = none_below_upto eps sV k
                    && negb (PrimFloat.ltb (nth k sV 0%float) eps)).
  { unfold none_below_upto. rewrite seq_S, forallb_app. simpl.
    now rewrite andb_true_r. }
  rewrite Hnth, Hflag.
  destruct (PrimFloat.ltb (nth k sV 0%float) eps) eqn:Hlt; simpl.
  - rewrite andb_false_r. f_equal.
    apply (nth_ext _ _ 0%float 0%float).
    + now rewrite length_update, !Hlen.
    + intros i Hi. rewrite length_update, Hlen in Hi.
      rewrite nth_update by now rewrite Hlen.
      unfold clamped_upto. rewrite !(nth_map_seq _ _ Hi).
      destruct (Nat.eqb_spec i k) as [-> | Hik].
      * replace (k <? S k) with true by (symmetry; apply Nat.ltb_lt; lia).
        now rewrite Hlt.
      * replace (i <? S k) with (i <? k); [reflexivity |].
        destruct (Nat.ltb_spec i k), (Nat.ltb_spec i (S k)); auto; lia.
  - rewrite andb_true_r. f_equal.
    unfold clamped_upto. apply map_ext_in. intros i Hi.
    destruct (Nat.eqb_spec i k) as [-> | Hik].
    + now rewrite Hlt, !andb_false_r.
    + replace (i <? S k) with (i <? k); [reflexivity |].
      destruct (Nat.ltb_spec i k), (Nat.ltb_spec i (S k)); auto; lia.
Qed.

Lemma clamp_rounds (eps : double) (sV : Vector) (k : nat) :
  k <= length sV ->
  fold_left (clamp eps) (seq 0 k) (sV, true)
  = (clamped_upto eps sV k, none_below_upto eps sV k).
Proof.
  induction k as [|k IH]; intro Hk.
  - simpl. f_equal. unfold clamped_upto. simpl.
    apply (nth_ext _ _ 0%float 0%float).
    + now rewrite length_map, length_seq.
    + intros i Hi. now rewrite (nth_map_seq _ _ Hi).
  - rewrite seq_S, fold_left_app, IH by lia. simpl.
    apply clamp_round. lia.
Qed.

Section CovarianceFacts.

Variable NDEBUG : bool.
Variable ldlt : Matrix -> LDLT.
Variable eigen_solver : Matrix -> SelfAdjointEigenSolver.
Variable inverse : Matrix -> Matrix.
Variable mul : Matrix -> Matrix -> Matrix.

(** The loop leaves [positive] set when no eigenvalue is below [eps]. *)
Lemma none_below_all (eps : double) (sV : Vector) :
  Forall (fun x => PrimFloat.ltb x eps = false) sV ->
  none_below_upto eps sV (length sV) = true.
Proof.
  intro Hall. apply forallb_forall. intros i Hi. apply in_seq in Hi.
  rewrite Forall_forall in Hall. rewrite Hall; [reflexivity |].
  apply nth_In. lia.
Qed.

Lemma positive_returns_early (matrix : Matrix) (eps : double) :
  none_below_upto eps (eigenvalues (eigen_solver matrix))
    (length (eigenvalues (eigen_solver matrix))) = true ->
  assurePositiveDefinite NDEBUG ldlt eigen_solver inverse mul matrix eps
  = Some matrix.
Proof.
  intro Hflag. unfold assurePositiveDefinite.
  rewrite clamp_rounds by lia. now rewrite Hflag.
Qed.

(** X1.  When no eigenvalue is below [eps] the matrix is returned as it
    came: nothing is clamped and nothing is rebuilt. *)
Lemma assurePositiveDefinite_untouched (matrix : Matrix) (eps : double) :
  Forall (fun x => PrimFloat.ltb x eps = false)
         (eigenvalues (eigen_solver matrix)) ->
  assurePositiveDefinite NDEBUG ldlt eigen_solver inverse mul matrix eps
  = Some matrix.
Proof.
  intro Hall. apply positive_returns_early. now apply none_below_all.
Qed.

(** X2.  When some eigenvalue is below [eps] and the call returns, the
    matrix is the product rebuilt from the clamped eigenvalues, and with
    assertions compiled in it passed the closing [assert]. *)
Lemma assurePositiveDefinite_rebuilt (matrix M' : Matrix) (eps : double) :
  Exists (fun x => PrimFloat.ltb x eps = true)
         (eigenvalues (eigen_solver matrix)) ->
  assurePositiveDefinite NDEBUG ldlt eigen_solver inverse mul matrix eps
  = Some M' ->
  let svd := eigen_solver matrix in
  M' = mul (mul (eigenvectors svd)
              (asDiagonal
                 (map (fun x => if PrimFloat.ltb x eps then eps else x)
                    (eigenvalues svd))))
         (inverse (eigenvectors svd))
  /\ (NDEBUG = false -> isPositiveDefinite ldlt M' = true).
Proof.
  intros Hex Hrun svd. subst svd. unfold assurePositiveDefinite in Hrun.
  rewrite clamp_rounds in Hrun by lia.
  set (sV := eigenvalues (eigen_solver matrix)) in *.
  assert (Hflag : none_below_upto eps sV (length sV) = false).
  { apply Exists_exists in Hex as (x & Hx & Hlt).
    apply (In_nth _ _ 0%float) in Hx as (i & Hi & <-).
    destruct (none_below_upto eps sV (length sV)) eqn:Hnb; [| reflexivity].
    unfold none_below_upto in Hnb. rewrite forallb_forall in Hnb.
    specialize (Hnb i ltac:(apply in_seq; lia)).
    rewrite Hlt in Hnb. discriminate. }
  rewrite Hflag in Hrun.
  assert (Hcl : clamped_upto eps sV (length sV)
                = map (fun x => if PrimFloat.ltb x eps then eps else x) sV).
  { apply (nth_ext _ _ 0%float 0%float).
    - unfold clamped_upto. now rewrite !length_map, length_seq.
    - intros i Hi. unfold clamped_upto in *.
      rewrite length_map, length_seq in Hi.
      rewrite (nth_map_seq _ _ Hi).
      replace (i <? length sV) with true by (symmetry; now apply Nat.ltb_lt).
      simpl. symmetry.
      rewrite (nth_indep
                 (map (fun x => if PrimFloat.ltb x eps then eps else x) sV)
                 0%float
                 (if PrimFloat.ltb 0%float eps then eps else 0%float))
        by now rewrite length_map.
      now rewrite (map_nth (fun x => if PrimFloat.ltb x eps then eps else x)). }
  rewrite Hcl in Hrun.
  match type of Hrun with
  | (if NDEBUG || isPositiveDefinite ldlt ?m then _ else _) = _ =>
      destruct (NDEBUG || isPositiveDefinite ldlt m) eqn:Hpd; [| discriminate]
  end.
  inversion Hrun; subst M'. split; [reflexivity |].
  intro Hdebug. now rewrite Hdebug in Hpd.
Qed.

End CovarianceFacts.

Lemma assurePositiveDefinite_untouched_witness :
  Forall (fun x => PrimFloat.ltb x 0.5%float = false)
         (eigenvalues (eigen_solver_1x1 [[2%float]]))
  /\ assurePositiveDefinite false ldlt_1x1 eigen_solver_1x1 inverse_1x1
       mul_1x1 [[2%float]] 0.5%float
     = Some [[2%float]].
Proof.
  assert (H : Forall (fun x => PrimFloat.ltb x 0.5%float = false)
                     (eigenvalues (eigen_solver_1x1 [[2%float]])))
    by (repeat constructor).
  split; [exact H |].
  exact (@assurePositiveDefinite_untouched false ldlt_1x1 eigen_solver_1x1
           inverse_1x1 mul_1x1 [[2%float]] 0.5%float H).
Defined.

Lemma assurePositiveDefinite_rebuilt_witness :
  Exists (fun x => PrimFloat.ltb x 0.5%float = true)
         (eigenvalues (eigen_solver_1x1 [[(-1)%float]]))
  /\ assurePositiveDefinite false ldlt_1x1 eigen_solver_1x1 inverse_1x1
       mul_1x1 [[(-1)%float]] 0.5%float
     = Some [[0.5%float]]
  /\ isPositiveDefinite ldlt_1x1 [[0.5%float]] = true.
Proof.
  assert (H : Exists (fun x => PrimFloat.ltb x 0.5%float = true)
                     (eigenvalues (eigen_solver_1x1 [[(-1)%float]])))
    by (constructor; reflexivity).
  split; [exact H |].
  split; [reflexivity |].
  exact (proj2 (@assurePositiveDefinite_rebuilt false ldlt_1x1
                  eigen_solver_1x1 inverse_1x1 mul_1x1 [[(-1)%float]]
                  [[0.5%float]] 0.5%float H eq_refl) eq_refl).
Defined.

(** A second call on an untouched matrix leaves it untouched again. *)
Lemma assurePositiveDefinite_untouched_twice (NDEBUG : bool)
  (ldlt : Matrix -> LDLT) (eigen_solver : Matrix -> SelfAdjointEigenSolver)
  (inverse : Matrix -> Matrix) (mul : Matrix -> Matrix -> Matrix)
  (matrix : Matrix) (eps : double) :
  Forall (fun x => PrimFloat.ltb x eps = false)
         (eigenvalues (eigen_solver matrix)) ->
  match assurePositiveDefinite NDEBUG ldlt eigen_solver inverse mul matrix eps
  with
  | Some once =>
      assurePositiveDefinite NDEBUG ldlt eigen_solver inverse mul once eps
      = Some once
  | None => False
  end.
Proof.
  intro H. apply none_below_all in H.
  rewrite (@positive_returns_early NDEBUG ldlt eigen_solver inverse mul
             matrix eps H).
  now apply positive_returns_early.
Qed.

(** ** The scenarios of the specification, evaluated *)

Example derivator_3 :
  derivator 3
  = [ceres.mkJet 0 [1; 0; 0]; ceres.mkJet 0 [0; 1; 0];
     ceres.mkJet 0 [0; 0; 1]]%float.
Proof. reflexivity. Qed.

Example two_scalars_scenario :
  transformReferenceJacobian0 TwoScalars
    (1%float, (2%float, tt)) (3%float, (4%float, tt))
  = Some [[1; 0]; [0; 1]]%float.
Proof. reflexivity. Qed.

Example two_scalars_with_Er1 :
  transformReferenceJacobian TwoScalars
    (1%float, (2%float, tt)) (3%float, (4%float, tt)) [0.5; 7]%float
  = Some [[1; 0]; [0; 1]]%float.
Proof. reflexivity. Qed.

Example scalar_and_vector_scenario :
  transformReferenceJacobian0 ScalarAndVector (1%float, tt) (3%float, tt)
  = Some [[1; 0; 0]; [0; 1; 0]; [0; 0; 1]]%float.
Proof. reflexivity. Qed.

(** A compound whose sub-manifolds do not fit its declared [DOF] leaves the
    matrix: the block assignment fails. *)
Example sub_manifolds_do_not_fit :
  transformReferenceJacobian0 (Compound 1 [Atomic Scalar1D; Atomic Scalar1D])
    (1%float, (2%float, tt)) (3%float, (4%float, tt))
  = None.
Proof. reflexivity. Qed.

(** With a negative [eps] the clamped eigenvalue stays negative: on the 1x1
    instance the closing [assert] fails, and without it the matrix left
    behind is [[-1]]. *)
Example negative_eps_on_1x1 :
  assurePositiveDefinite false ldlt_1x1 eigen_solver_1x1 inverse_1x1 mul_1x1
    [[(-2)%float]] (-1)%float = None
  /\ assurePositiveDefinite true ldlt_1x1 eigen_solver_1x1 inverse_1x1 mul_1x1
       [[(-2)%float]] (-1)%float = Some [[(-1)%float]].
Proof. split; reflexivity. Qed.

Example AutoMatrixType_2x3 :
  AutoMatrixType 16 double_t 2 3
  = {| Scalar := double_t; RowsAtCompileTime := 2; ColsAtCompileTime := 2 |}.
Proof. reflexivity. Qed.

(** A product that leaves the [int] range wraps: 65536 * 131072 counts as 0
    and the type stays fixed, 65536 x 65536. *)
Example AutoMatrixType_wrapped :
  AutoMatrixType 16 double_t 65536 131072
  = {| Scalar := double_t;
       RowsAtCompileTime := 65536; ColsAtCompileTime := 65536 |}.
Proof. reflexivity. Qed.

Example AutoMatrixType_float :
  forall threshold N M, Scalar (AutoMatrixType threshold float_t N M) = double_t.
Proof. intros. unfold AutoMatrixType. now destruct (dynamicMatrix _ _ _). Qed.

(** A compound inside a compound: the inner one holds a scalar manifold and
    one plain coefficient, the outer one a scalar manifold, the inner
    compound and one plain coefficient. *)
Example nested_compound_scenario :
  transformReferenceJacobian
    (Compound 4 [Atomic Scalar1D; Compound 2 [Atomic Scalar1D]])
    (1%float, ((2%float, tt), tt)) (3%float, ((4%float, tt), tt))
    [0.25; 0.5; 0.75; 1]%float
  = Some (Identity 4 4).
Proof. reflexivity. Qed.

(** * Further properties of the header *)

(** ** Comparisons of doubles *)

Lemma SFcompare_refl (f : spec_float) :
  SFcompare f f = match f with S754_nan => None | _ => Some Eq end.
Proof.
  destruct f as [s | s | | s m e]; simpl; try reflexivity.
  - now destruct s.
  - destruct s; rewrite Z.compare_refl, Pos.compare_cont_refl; reflexivity.
Qed.

Lemma ltb_irrefl (x : double) : PrimFloat.ltb x x = false.
Proof.
  rewrite ltb_spec. unfold SFltb. rewrite SFcompare_refl.
  now destruct (Prim2SF x).
Qed.

Lemma ltb_nan_r (x : double) : PrimFloat.ltb x nan = false.
Proof.
  rewrite ltb_spec. unfold SFltb.
  change (Prim2SF nan) with S754_nan.
  now destruct (Prim2SF x).
Qed.

Lemma ltb_nan_l (x : double) : PrimFloat.ltb nan x = false.
Proof.
  rewrite ltb_spec. unfold SFltb.
  change (Prim2SF nan) with S754_nan. reflexivity.
Qed.

Lemma Prim2SF_nan (x : double) : Prim2SF x = S754_nan <-> x = nan.
Proof.
  split; [| now intros ->].
  intro H. apply Prim2SF_inj. now rewrite H.
Qed.

(** A double is finite when it is none of NaN, +infinity and -infinity. *)
Lemma is_finite_spec (x : double) :
  is_finite x = true <-> x <> nan /\ x <> infinity /\ x <> neg_infinity.
Proof.
  unfold is_finite, is_nan, is_infinity.
  rewrite !eqb_spec, abs_spec. unfold SFeqb. rewrite SFcompare_refl.
  change (Prim2SF infinity) with (S754_infinity false).
  split.
  - intro H. repeat split; intros ->; discriminate H.
  - intros (Hn & Hi & Hni).
    destruct (Prim2SF x) as [s | s | | s m e] eqn:Hx; simpl; try reflexivity.
    + exfalso. destruct s.
      * apply Hni, Prim2SF_inj. now rewrite Hx.
      * apply Hi, Prim2SF_inj. now rewrite Hx.
    + exfalso. now apply Hn, Prim2SF_nan.
Qed.

(** ** assert_finite *)

Lemma allFinite_spec (matrix : Matrix) :
  allFinite matrix = true
  <-> forall row x, In row matrix -> In x row ->
                    x <> nan /\ x <> infinity /\ x <> neg_infinity.
Proof.
  unfold allFinite. rewrite forallb_forall. split.
  - intros H row x Hrow Hx. apply is_finite_spec.
    specialize (H row Hrow). rewrite forallb_forall in H. now apply H.
  - intros H row Hrow. apply forallb_forall. intros x Hx.
    apply is_finite_spec. now apply (H row).
Qed.

(** X3.  [assert_finite] returns normally exactly when assertions are
    compiled out or no coefficient of any argument is NaN, +infinity or
    -infinity; in particular the call without arguments always returns. *)
Theorem assert_finite_returns (NDEBUG : bool) (args : list Matrix) :
  assert_finite NDEBUG args = Some tt
  <-> NDEBUG = true
      \/ forall matrix row x,
          In matrix args -> In row matrix -> In x row ->
          x <> nan /\ x <> infinity /\ x <> neg_infinity.
Proof.
  destruct NDEBUG.
  - split; [now left |]. intros _.
    induction args as [|first args IH]; simpl; auto.
  - induction args as [|first args IH]; simpl.
    + split; [| reflexivity]. intros _. right. intros matrix row x [].
    + destruct (isfinite first) eqn:Hfirst.
      * rewrite IH. unfold isfinite in Hfirst.
        rewrite allFinite_spec in Hfirst. split.
        -- intros [Hn | Hrest]; [discriminate |]. right.
           intros matrix row x [<- | Hin]; eauto.
        -- intros [Hn | Hall]; [discriminate |]. right.
           intros matrix row x Hin. apply Hall. now right.
      * split; [discriminate |].
        intros [Hn | Hall]; [discriminate |]. exfalso.
        assert (Hfin : allFinite first = true).
        { apply allFinite_spec. intros row x. apply Hall. now left. }
        unfold isfinite in Hfirst. congruence.
Qed.

(** ** The noise macros *)

Lemma nth_segment (vec seg : Vector) (start n i : nat) :
  segment vec start n = Some seg -> i < n ->
  nth i seg 0%float = nth (start + i) vec 0%float.
Proof.
  unfold segment. destruct (Nat.leb_spec (start + n) (length vec)); [| discriminate].
  intros [= <-] Hi.
  rewrite <- (firstn_skipn start vec) at 2.
  rewrite app_nth2 by (rewrite length_firstn; lia).
  rewrite length_firstn, Nat.min_l by lia.
  replace (start + i - start) with i by lia.
  rewrite <- (firstn_skipn n (skipn start vec)) at 2.
  rewrite app_nth1; [reflexivity |].
  rewrite length_firstn, length_skipn. lia.
Qed.

Lemma segment_app (vec : Vector) (start n m : nat) :
  start + n + m <= length vec ->
  firstn n (skipn start vec) ++ firstn m (skipn (start + n) vec)
  = firstn (n + m) (skipn start vec).
Proof.
  intro H.
  rewrite <- (firstn_skipn n (skipn start vec)) at 2.
  rewrite firstn_app, length_firstn, length_skipn.
  rewrite Nat.min_l by lia.
  rewrite firstn_firstn, Nat.min_r by lia.
  replace (n + m - n) with m by lia.
  now rewrite skipn_skipn, (Nat.add_comm n start).
Qed.

(** X4.  [NOISE(noise, start, size)] exists exactly when
    [start + size] does not pass the end of [noise]; it then has [size]
    coefficients, the [i]-th being [noise[start + i]], so that [start + size]
    is excluded.  The form without a name reads the vector called [noise]
    and is the same segment, and two adjacent segments put together are the
    segment over both. *)
Theorem NOISE_segment (noise : Vector) (start size : nat) :
  ((exists seg, NOISE_WITH_OTHER_NAME noise start size = Some seg)
   <-> start + size <= length noise)
  /\ (forall seg, NOISE_WITH_OTHER_NAME noise start size = Some seg ->
        length seg = size
        /\ forall i, i < size ->
                     nth i seg 0%float = nth (start + i) noise 0%float)
  /\ NOISE_WITHOUT_NOISE_NAME noise start size
     = NOISE_WITH_OTHER_NAME noise start size
  /\ (forall next, start + size + next <= length noise ->
        exists seg1 seg2,
          NOISE_WITH_OTHER_NAME noise start size = Some seg1
          /\ NOISE_WITH_OTHER_NAME noise (start + size) next = Some seg2
          /\ NOISE_WITH_OTHER_NAME noise start (size + next)
             = Some (seg1 ++ seg2)).
Proof.
  unfold NOISE_WITHOUT_NOISE_NAME, NOISE_WITH_OTHER_NAME.
  split; [| split; [| split; [reflexivity |]]].
  - unfold segment.
    destruct (Nat.leb_spec (start + size) (length noise)) as [H | H].
    + split; [auto | eauto].
    + split; [intros [seg Hseg]; discriminate | lia].
  - intros seg Hseg. split.
    + destruct (@segment_inside noise start size) as (cur & Hcur & Hlen).
      * unfold segment in Hseg.
        destruct (Nat.leb_spec (start + size) (length noise));
          [assumption | discriminate].
      * congruence.
    + intros i Hi. now apply (nth_segment _ _ Hseg).
  - intros next Hfit.
    exists (firstn size (skipn start noise)),
           (firstn next (skipn (start + size) noise)).
    unfold segment.
    replace (start + size <=? length noise) with true
      by (symmetry; apply Nat.leb_le; lia).
    replace (start + size + next <=? length noise) with true
      by (symmetry; now apply Nat.leb_le).
    replace (start + (size + next) <=? length noise) with true
      by (symmetry; apply Nat.leb_le; lia).
    repeat split. f_equal. symmetry. now apply segment_app.
Qed.

(** X5.  [NOISE] called with two arguments expands to
    [NOISE_WITHOUT_NOISE_NAME] and with three to [NOISE_WITH_OTHER_NAME],
    and with no other number: with fewer than two there is no fourth
    argument to select, and with more than three the selected "macro" is the
    caller's own fourth argument. *)
Theorem NOISE_selects (n : nat) :
  (NOISE n = Some without_noise_name <-> n = 2)
  /\ (NOISE n = Some with_other_name <-> n = 3)
  /\ (NOISE n = None <-> n < 2)
  /\ (NOISE n = Some caller_argument <-> 3 < n).
Proof.
  destruct n as [|[|[|[|n]]]]; cbn;
    repeat split; intros; try discriminate; try lia; try reflexivity.
Qed.

(** ** When transformReferenceJacobian returns *)

(** A walk that comes back has fitted every block, and every block it wrote
    was there to write. *)
Section WalkReturns.

Variable blockOf : forall Sub : ManifoldType,
    instance Sub -> instance Sub -> nat -> option Matrix.
Variable n : nat.
Variable Q : ManifoldType -> Prop.

Lemma walk_returns (subs : list ManifoldType) :
  Forall (fun Sub => forall m1 m2 o J,
              blockOf Sub m1 m2 o = Some J -> Q Sub) subs ->
  forall (ref1 ref2 : instances subs) (D : Matrix) (o : nat)
         (st' : Matrix * nat),
    has_dims n n D -> o <= n ->
    forEachManifoldWithOther (writeBlock blockOf) subs ref1 ref2 (D, o)
    = Some st' ->
    o + list_sum (map DOFOf subs) <= n
    /\ Forall Q subs
    /\ has_dims n n (fst st').
Proof.
  induction 1 as [|Sub subs HQ _ IH]; intros ref1 ref2 D o st' HD Ho Hrun.
  - simpl in *. inversion Hrun; subst. simpl.
    split; [lia |]. split; [constructor | assumption].
  - simpl in Hrun. unfold writeBlock at 1 in Hrun.
    destruct (blockOf Sub (fst ref1) (fst ref2) o) as [J |] eqn:HJ;
      [| discriminate].
    destruct (setBlock D o o (DOFOf Sub) (DOFOf Sub) J) as [D1 |] eqn:HS;
      [| discriminate].
    assert (Hfit : o + DOFOf Sub <= n).
    { destruct (Nat.le_gt_cases (o + DOFOf Sub) n) as [Hle | Hgt];
        [assumption |].
      rewrite (@setBlock_outside n D J o (DOFOf Sub) HD Hgt) in HS.
      discriminate. }
    pose proof (@setBlock_dims n D D1 J o (DOFOf Sub) HD HS) as HD1.
    destruct (IH (snd ref1) (snd ref2) D1 (o + DOFOf Sub) st' HD1 Hfit Hrun)
      as (Hsum & Hall & Hdims).
    simpl. split; [lia |]. split; [| assumption].
    constructor; [exact (HQ _ _ _ _ HJ) | assumption].
Qed.

End WalkReturns.

Lemma transformReferenceJacobian_Some_well_formed (T : ManifoldType) :
  forall (ref1 ref2 : instance T) (Er1 : Vector) (D : Matrix),
    transformReferenceJacobian T ref1 ref2 Er1 = Some D ->
    well_formed T /\ (is_CompoundManifold T = true ->
                      has_dims (DOFOf T) (DOFOf T) D).
Proof.
  induction T as [M | d subs IH] using ManifoldType_induction;
    intros ref1 ref2 Er1 D HD.
  - split; [exact I | discriminate].
  - rewrite transformReferenceJacobian_Compound in HD.
    rewrite (forEachManifoldWithOther_ext _ _
               (calcManifoldJacobian_writeBlock Er1)) in HD.
    destruct (forEachManifoldWithOther _ _ _ _ _) as [[D' o'] |] eqn:Hrun;
      [| discriminate].
    inversion HD; subst D'.
    assert (HQ : Forall (fun Sub => forall m1 m2 o J,
                             block_with Er1 Sub m1 m2 o = Some J ->
                             well_formed Sub) subs).
    { eapply Forall_impl; [| exact IH]. intros Sub HSub m1 m2 o J HJ.
      unfold block_with in HJ.
      destruct (segment Er1 o (DOFOf Sub)) as [cur |]; [| discriminate].
      exact (proj1 (HSub _ _ _ _ HJ)). }
    destruct (@walk_returns (block_with Er1) d well_formed subs HQ ref1 ref2
                (Identity d d) 0 (D, o') (has_dims_Identity d d)
                (Nat.le_0_l d) Hrun) as (Hsum & Hall & Hdims).
    split; [| intros _; exact Hdims].
    split; [exact Hsum | now apply well_formed_subs].
Qed.

Lemma transformReferenceJacobian0_Some_well_formed (T : ManifoldType) :
  forall (ref1 ref2 : instance T) (D : Matrix),
    transformReferenceJacobian0 T ref1 ref2 = Some D ->
    well_formed T /\ (is_CompoundManifold T = true ->
                      has_dims (DOFOf T) (DOFOf T) D).
Proof.
  induction T as [M | d subs IH] using ManifoldType_induction;
    intros ref1 ref2 D HD.
  - split; [exact I | discriminate].
  - rewrite transformReferenceJacobian0_Compound in HD.
    rewrite (forEachManifoldWithOther_ext _ _
               calcManifoldJacobian0_writeBlock) in HD.
    destruct (forEachManifoldWithOther _ _ _ _ _) as [[D' o'] |] eqn:Hrun;
      [| discriminate].
    inversion HD; subst D'.
    assert (HQ : Forall (fun Sub => forall m1 m2 (o : nat) J,
                             block_without Sub m1 m2 o = Some J ->
                             well_formed Sub) subs).
    { eapply Forall_impl; [| exact IH]. intros Sub HSub m1 m2 o J HJ.
      exact (proj1 (HSub _ _ _ HJ)). }
    destruct (@walk_returns block_without d well_formed subs HQ ref1 ref2
                (Identity d d) 0 (D, o') (has_dims_Identity d d)
                (Nat.le_0_l d) Hrun) as (Hsum & Hall & Hdims).
    split; [| intros _; exact Hdims].
    split; [exact Hsum | now apply well_formed_subs].
Qed.

(** X6.  Called with an [Er1] of the type's [DOF], both overloads return a
    matrix exactly when the type is well formed, that is when at every level
    the visited sub-manifolds fit the declared [DOF]; otherwise a block
    assignment leaves the matrix and no matrix is returned.  What a compound
    returns is always [DOF x DOF]. *)
Theorem transformReferenceJacobian_returns_iff (T : ManifoldType)
  (ref1 ref2 : instance T) (Er1 : Vector) :
  length Er1 = DOFOf T ->
  ((exists D, transformReferenceJacobian T ref1 ref2 Er1 = Some D)
   <-> well_formed T)
  /\ ((exists D, transformReferenceJacobian0 T ref1 ref2 = Some D)
      <-> well_formed T)
  /\ (is_CompoundManifold T = true ->
      forall D,
        transformReferenceJacobian T ref1 ref2 Er1 = Some D
        \/ transformReferenceJacobian0 T ref1 ref2 = Some D ->
        has_dims (DOFOf T) (DOFOf T) D).
Proof.
  intro HEr1. split; [| split].
  - split.
    + intros [D HD].
      exact (proj1 (transformReferenceJacobian_Some_well_formed _ _ _ _ HD)).
    + intro Hwf. now apply transformReferenceJacobian_returns.
  - split.
    + intros [D HD].
      exact (proj1 (transformReferenceJacobian0_Some_well_formed _ _ _ HD)).
    + intro Hwf. now apply transformReferenceJacobian0_returns.
  - intros Hc D [HD | HD].
    + exact (proj2 (transformReferenceJacobian_Some_well_formed _ _ _ _ HD) Hc).
    + exact (proj2 (transformReferenceJacobian0_Some_well_formed _ _ _ HD) Hc).
Qed.

Lemma transformReferenceJacobian_returns_iff_witness :
  length (Zero 1) = 1
  /\ ~ well_formed (Compound 1 [Atomic Scalar1D; Atomic Scalar1D])
  /\ ~ exists D,
        transformReferenceJacobian
          (Compound 1 [Atomic Scalar1D; Atomic Scalar1D])
          (1%float, (2%float, tt)) (3%float, (4%float, tt)) (Zero 1)
        = Some D.
Proof.
  assert (Hnot : ~ well_formed (Compound 1 [Atomic Scalar1D; Atomic Scalar1D]))
    by (simpl; lia).
  split; [reflexivity |]. split; [exact Hnot |].
  intro Hex. apply Hnot.
  exact (proj1 (proj1 (@transformReferenceJacobian_returns_iff
                         (Compound 1 [Atomic Scalar1D; Atomic Scalar1D])
                         (1%float, (2%float, tt)) (3%float, (4%float, tt))
                         (Zero 1) eq_refl)) Hex).
Defined.

(** ** What of Er1 is read *)

Lemma segment_prefix (Er1 Er1' : Vector) (read o k : nat) :
  length Er1 = length Er1' ->
  firstn read Er1 = firstn read Er1' ->
  o + k <= read ->
  segment Er1 o k = segment Er1' o k.
Proof.
  intros Hlen Hpre Hok. unfold segment. rewrite Hlen.
  destruct (o + k <=? length Er1'); [| reflexivity].
  f_equal.
  assert (Hcut : forall l : Vector,
             firstn k (skipn o l) = firstn k (skipn o (firstn read l))).
  { intro l. rewrite !firstn_skipn_comm, firstn_firstn.
    now rewrite Nat.min_l by lia. }
  now rewrite (Hcut Er1), (Hcut Er1'), Hpre.
Qed.

Lemma walk_prefix (Er1 Er1' : Vector) (read : nat)
  (subs : list ManifoldType) :
  length Er1 = length Er1' ->
  firstn read Er1 = firstn read Er1' ->
  forall (ref1 ref2 : instances subs) (D : Matrix) (o : nat),
    o + list_sum (map DOFOf subs) <= read ->
    forEachManifoldWithOther (calcManifoldJacobian Er1) subs ref1 ref2 (D, o)
    = forEachManifoldWithOther (calcManifoldJacobian Er1') subs ref1 ref2
        (D, o).
Proof.
  intros Hlen Hpre.
  induction subs as [|Sub subs IH]; intros ref1 ref2 D o Hread.
  - reflexivity.
  - simpl in *.
    rewrite (@segment_prefix Er1 Er1' read o (DOFOf Sub) Hlen Hpre)
      by lia.
    destruct (segment Er1' o (DOFOf Sub)) as [cur |]; [| reflexivity].
    destruct (transformReferenceJacobian _ _ _ _) as [J |]; [| reflexivity].
    destruct (setBlock _ _ _ _ _ _) as [D1 |]; [| reflexivity].
    apply IH. lia.
Qed.

(** X7.  For a compound the overload with [Er1] reads only the entries of
    [Er1] that belong to the visited sub-manifolds: two error vectors of the
    same size that agree on those first entries give the same outcome. *)
Theorem transformReferenceJacobian_reads_visited (d : nat)
  (subs : list ManifoldType) (ref1 ref2 : instance (Compound d subs))
  (Er1 Er1' : Vector) :
  length Er1 = length Er1' ->
  firstn (list_sum (map DOFOf subs)) Er1
  = firstn (list_sum (map DOFOf subs)) Er1' ->
  transformReferenceJacobian (Compound d subs) ref1 ref2 Er1
  = transformReferenceJacobian (Compound d subs) ref1 ref2 Er1'.
Proof.
  intros Hlen Hpre.
  rewrite !transformReferenceJacobian_Compound.
  now rewrite (@walk_prefix Er1 Er1' _ subs Hlen Hpre ref1 ref2
                 (Identity d d) 0 (Nat.le_refl _)).
Qed.

Lemma transformReferenceJacobian_reads_visited_witness :
  length [0.5; 1; 2]%float = length [0.5; 7; 9]%float
  /\ firstn 1 [0.5; 1; 2]%float = firstn 1 [0.5; 7; 9]%float
  /\ transformReferenceJacobian ScalarAndVector (1%float, tt) (3%float, tt)
       [0.5; 1; 2]%float
     = transformReferenceJacobian ScalarAndVector (1%float, tt) (3%float, tt)
         [0.5; 7; 9]%float.
Proof.
  split; [reflexivity |]. split; [reflexivity |].
  exact (@transformReferenceJacobian_reads_visited 3 [Atomic Scalar1D]
           (1%float, tt) (3%float, tt) [0.5; 1; 2]%float [0.5; 7; 9]%float
           eq_refl eq_refl).
Defined.

(** ** Vector-like manifolds *)

Lemma map_v_vadd (x : Vector) (d : list Jet) :
  length x = length d -> map ceres.v (vadd x d) = map ceres.v d.
Proof.
  revert d; induction x as [|s x IH]; intros [|f d] H; simpl in *;
    try discriminate; [reflexivity |].
  f_equal. apply IH. lia.
Qed.

Lemma length_vadd (x : Vector) (d : list Jet) :
  length x = length d -> length (vadd x d) = length d.
Proof.
  intro H. unfold vadd. rewrite length_map, length_combine, H.
  apply Nat.min_id.
Qed.

Lemma all_vector_like_subs (subs : list ManifoldType) :
  fold_right (fun Sub acc => all_vector_like Sub /\ acc) True subs
  <-> Forall all_vector_like subs.
Proof.
  induction subs as [|Sub subs IH]; simpl.
  - split; auto.
  - rewrite IH. split.
    + intros [H1 H2]. now constructor.
    + intro H. inversion H. auto.
Qed.

Section WalkIdentity.

Variable blockOf : forall Sub : ManifoldType,
    instance Sub -> instance Sub -> nat -> option Matrix.
Variable n : nat.

Lemma walk_Identity_blocks (subs : list ManifoldType) :
  Forall (fun Sub => forall m1 m2 o, o + DOFOf Sub <= n ->
              blockOf Sub m1 m2 o
              = Some (Identity (DOFOf Sub) (DOFOf Sub))) subs ->
  forall (ref1 ref2 : instances subs) (o : nat),
    o + list_sum (map DOFOf subs) <= n ->
    forEachManifoldWithOther (writeBlock blockOf) subs ref1 ref2
      (Identity n n, o)
    = Some (Identity n n, o + list_sum (map DOFOf subs)).
Proof.
  induction 1 as [|Sub subs Hid _ IH]; intros ref1 ref2 o Hfit; simpl in *.
  - now rewrite Nat.add_0_r.
  - unfold writeBlock at 1.
    rewrite Hid, setBlock_Identity by lia.
    rewrite IH by lia. f_equal. f_equal. lia.
Qed.

End WalkIdentity.

(** X8.  For a well-formed type built from vector-like manifolds only
    (scalars, vectors: [+] and [-] hand the derivative parts through) both
    overloads return the [DOF x DOF] identity, whatever the two references
    and the error are. *)
Theorem transformReferenceJacobian_vector_like (T : ManifoldType) :
  well_formed T -> all_vector_like T -> identity_for_all_references T.
Proof.
  induction T as [M | d subs IH] using ManifoldType_induction;
    intros Hwf Hvl.
  - simpl in Hvl. split.
    + intros ref1 ref2 Er1 HEr1. simpl in *. f_equal.
      rewrite extractJacobi_rows, Hvl
        by (rewrite length_vadd; now rewrite length_derivator).
      rewrite map_v_vadd by now rewrite length_derivator.
      apply map_v_derivator.
    + intros ref1 ref2. simpl. f_equal.
      rewrite extractJacobi_rows, Hvl by apply length_derivator.
      apply map_v_derivator.
  - destruct Hwf as [Hfit Hwf]. apply well_formed_subs in Hwf.
    simpl in Hvl. apply all_vector_like_subs in Hvl.
    assert (Hall : Forall identity_for_all_references subs).
    { rewrite Forall_forall in *. auto. }
    split.
    + intros ref1 ref2 Er1 HEr1. simpl in HEr1.
      rewrite transformReferenceJacobian_Compound.
      rewrite (forEachManifoldWithOther_ext _ _
                 (calcManifoldJacobian_writeBlock Er1)).
      rewrite (@walk_Identity_blocks (block_with Er1) d subs);
        [reflexivity | | exact Hfit].
      eapply Forall_impl; [| exact Hall].
      intros Sub [Hwith _] m1 m2 o Ho. unfold block_with.
      destruct (@segment_inside Er1 o (DOFOf Sub)) as (cur & -> & Hcur);
        [lia |].
      now apply Hwith.
    + intros ref1 ref2.
      rewrite transformReferenceJacobian0_Compound.
      rewrite (forEachManifoldWithOther_ext _ _
                 calcManifoldJacobian0_writeBlock).
      rewrite (@walk_Identity_blocks block_without d subs);
        [reflexivity | | exact Hfit].
      eapply Forall_impl; [| exact Hall].
      intros Sub [_ Hwithout] m1 m2 o Ho. apply Hwithout.
Qed.

Lemma vector_like_Scalar1D : vector_like Scalar1D.
Proof.
  intros ref1 ref2 d Hd. destruct d as [|f [|g d]]; try discriminate.
  reflexivity.
Qed.

Lemma transformReferenceJacobian_vector_like_witness :
  well_formed TwoScalars
  /\ all_vector_like TwoScalars
  /\ transformReferenceJacobian TwoScalars
       (1%float, (2%float, tt)) (3%float, (4%float, tt)) [0.5; 7]%float
     = Some (Identity 2 2).
Proof.
  assert (Hvl : all_vector_like TwoScalars)
    by (simpl; repeat split; exact vector_like_Scalar1D).
  split; [exact well_formed_TwoScalars |]. split; [exact Hvl |].
  exact (proj1 (@transformReferenceJacobian_vector_like TwoScalars
                  well_formed_TwoScalars Hvl)
           (1%float, (2%float, tt)) (3%float, (4%float, tt)) [0.5; 7]%float
           eq_refl).
Defined.

(** ** Seeding and extracting *)

(** X9.  Extracting the Jacobian of the derivator's seed, with or without an
    error vector of the same size added to it, gives the identity: the seed
    differentiates the identity map, and adding [Er1] moves the point but
    not the derivative. *)
Theorem extractJacobi_of_seed (Size : nat) (st : DerivatorStatics)
  (Er1 : Vector) :
  reachable Size st ->
  length Er1 = Size ->
  extractJacobi (fst (getDerivator Size st)) = Identity Size Size
  /\ extractJacobi (vadd Er1 (fst (getDerivator Size st)))
     = Identity Size Size.
Proof.
  intros Hst HEr1. rewrite (getDerivator_returns Hst).
  rewrite !extractJacobi_rows.
  rewrite map_v_vadd by now rewrite length_derivator.
  split; apply map_v_derivator.
Qed.

Lemma extractJacobi_of_seed_witness :
  reachable 2 {| result := []; first_call := true |}
  /\ length [3; 4]%float = 2
  /\ extractJacobi
       (vadd [3; 4]%float
          (fst (getDerivator 2 {| result := []; first_call := true |})))
     = [[1; 0]; [0; 1]]%float.
Proof.
  split; [apply reachable_init |]. split; [reflexivity |].
  exact (proj2 (@extractJacobi_of_seed 2 _ [3; 4]%float
                  (reachable_init 2 []) eq_refl)).
Defined.

(** ** The derivator's cache *)

(** X10.  From the first call on, the statics of [getDerivator<Size>] stay
    what the first call made them: the stored basis with [first_call]
    cleared.  However many calls follow, none writes to them again. *)
Theorem getDerivator_caches (Size : nat) (res0 : list Jet) (calls : nat) :
  Nat.iter (S calls) (fun st => snd (getDerivator Size st))
    {| result := res0; first_call := true |}
  = {| result := derivator Size; first_call := false |}.
Proof.
  induction calls as [|calls IH].
  - reflexivity.
  - change (Nat.iter (S (S calls)) ?f ?x) with (f (Nat.iter (S calls) f x)).
    now rewrite IH.
Qed.

(** ** The loop over the eigenvalues *)

Lemma clamped_upto_all (eps : double) (sV : Vector) :
  clamped_upto eps sV (length sV)
  = map (fun x => if PrimFloat.ltb x eps then eps else x) sV.
Proof.
  apply (nth_ext _ _ 0%float 0%float).
  - unfold clamped_upto. now rewrite !length_map, length_seq.
  - intros i Hi. unfold clamped_upto in *.
    rewrite length_map, length_seq in Hi.
    rewrite (nth_map_seq _ _ Hi).
    replace (i <? length sV) with true by (symmetry; now apply Nat.ltb_lt).
    simpl. symmetry.
    rewrite (nth_indep
               (map (fun x => if PrimFloat.ltb x eps then eps else x) sV)
               0%float
               (if PrimFloat.ltb 0%float eps then eps else 0%float))
      by now rewrite length_map.
    now rewrite (map_nth (fun x => if PrimFloat.ltb x eps then eps else x)).
Qed.

Lemma none_below_upto_all (eps : double) (sV : Vector) :
  none_below_upto eps sV (length sV) = true
  <-> Forall (fun x => PrimFloat.ltb x eps = false) sV.
Proof.
  unfold none_below_upto. rewrite forallb_forall, Forall_forall. split.
  - intros H x Hx. apply (In_nth _ _ 0%float) in Hx as (i & Hi & <-).
    specialize (H i ltac:(apply in_seq; lia)).
    now destruct (PrimFloat.ltb (nth i sV 0%float) eps).
  - intros H i Hi. apply in_seq in Hi.
    rewrite H; [reflexivity | apply nth_In; lia].
Qed.

(** X11.  After the loop of [assurePositiveDefinite] the vector has its
    size, every eigenvalue that compared below [eps] is [eps] and every other
    one, a NaN too, is as it was, so none compares below [eps] any more;
    [positive] is still set exactly when none did before, and then the
    vector is unchanged. *)
Theorem clamp_loop (eps : double) (sV : Vector) :
  let out := fold_left (clamp eps) (seq 0 (length sV)) (sV, true) in
  length (fst out) = length sV
  /\ fst out = map (fun x => if PrimFloat.ltb x eps then eps else x) sV
  /\ Forall (fun x => PrimFloat.ltb x eps = false) (fst out)
  /\ (snd out = true
      <-> Forall (fun x => PrimFloat.ltb x eps = false) sV)
  /\ (snd out = true -> fst out = sV).
Proof.
  intro out. subst out. rewrite clamp_rounds by lia. simpl.
  rewrite clamped_upto_all.
  split; [now rewrite length_map |].
  split; [reflexivity |].
  split; [| split].
  - apply Forall_forall. intros y Hy.
    apply in_map_iff in Hy as (x & <- & _).
    destruct (PrimFloat.ltb x eps) eqn:Hx; [apply ltb_irrefl | exact Hx].
  - apply none_below_upto_all.
  - intro Hflag. apply none_below_upto_all in Hflag.
    rewrite <- (map_id sV) at 2. apply map_ext_in. intros x Hx.
    rewrite Forall_forall in Hflag. now rewrite (Hflag x Hx).
Qed.

(** X12.  [assurePositiveDefinite] leaves the matrix untouched when [eps]
    is NaN, and when every eigenvalue the solver reports is NaN, as for a
    matrix that holds NaN: a comparison with NaN is never true, so nothing
    is clamped, nothing rebuilt and nothing asserted. *)
Theorem assurePositiveDefinite_NaN (NDEBUG : bool) (ldlt : Matrix -> LDLT)
  (eigen_solver : Matrix -> SelfAdjointEigenSolver)
  (inverse : Matrix -> Matrix) (mul : Matrix -> Matrix -> Matrix)
  (matrix : Matrix) (eps : double) :
  eps = nan \/ Forall (fun x => x = nan) (eigenvalues (eigen_solver matrix)) ->
  assurePositiveDefinite NDEBUG ldlt eigen_solver inverse mul matrix eps
  = Some matrix.
Proof.
  intro H. apply positive_returns_early. apply none_below_upto_all.
  apply Forall_forall. intros x Hx. destruct H as [-> | Hall].
  - apply ltb_nan_r.
  - rewrite Forall_forall in Hall. rewrite (Hall x Hx). apply ltb_nan_l.
Qed.

Lemma assurePositiveDefinite_NaN_witness :
  (nan = nan
   \/ Forall (fun x => x = nan) (eigenvalues (eigen_solver_1x1 [[(-2)%float]])))
  /\ assurePositiveDefinite false ldlt_1x1 eigen_solver_1x1 inverse_1x1
       mul_1x1 [[(-2)%float]] nan
     = Some [[(-2)%float]].
Proof.
  split; [now left |].
  exact (@assurePositiveDefinite_NaN false ldlt_1x1 eigen_solver_1x1
           inverse_1x1 mul_1x1 [[(-2)%float]] nan (or_introl eq_refl)).
Defined.
